(** * Semantic cache of Module_3/Semantic_Cache/Semantic_cache_from_scratch.ipynb

    A shallow embedding of the notebook's [make_prediction] function and
    [SemanticCaching] class, and the properties of its hit/miss policy,
    its persistence and its error propagation.

    Modelling conventions.
    - Python objects that travel through [json.load] / [json.dump] and
      [response.json()] are values of the type [json]; [None] is [JNull].
    - A floating-point number is modelled by the rational it stands for
      ([Q]).  [float32] and [float64] round a rational to the nearest number
      of the format, ties to even; an infinity is stood for by the first
      power of two beyond the format, NaN is not represented.  The distance
      FAISS computes is the exact sum of squares; it becomes a float32
      number where the notebook compares it.
    - [faiss.IndexFlatL2], [SentenceTransformer.encode], [requests.post],
      [json.load] and the Colab [userdata] store are external libraries;
      they are modelled by their documented behaviour (see each definition).
    - Methods run in a state-and-exception monad over [state], which holds
      the attributes of the object together with the file at
      [self.json_file] and a log of the external effects performed.
    - [print] and the latency measurements are not modelled. *)

From Stdlib Require Import List String ZArith QArith Qround Qpower Bool Lia.
From Stdlib Require Import DecimalString.
Import ListNotations.

Set Warnings "-register-all".

Local Open Scope string_scope.
Local Open Scope Z_scope.

(** ** Python values *)

Inductive json : Type :=
| JNull
| JBool (b : bool)
| JNum (x : Q)
| JStr (s : string)
| JArr (items : list json)
| JObj (members : list (string * json)).

(** Exceptions, by class, with the text [str(e)] puts in an f-string.
    [OSError] stands for the subclasses of [OSError] other than
    [FileNotFoundError] (as [PermissionError] and [IsADirectoryError]), with
    their whole text; [SecretNotFoundError] is the exception of
    [google.colab.userdata]. *)
Inductive exn : Type :=
| FileNotFoundError (filename : string)
| JSONDecodeError
| AssertionError
| TypeError (msg : string)
| KeyError (repr_key : string)
| IndexError (msg : string)
| AttributeError (msg : string)
| RuntimeError (msg : string)
| OSError (msg : string)
| SecretNotFoundError (key : string).

Definition str (e : exn) : string :=
  match e with
  | FileNotFoundError filename =>
      "[Errno 2] No such file or directory: '" ++ filename ++ "'"
  | JSONDecodeError => "Expecting value"
  | AssertionError => EmptyString
  | TypeError msg => msg
  | KeyError repr_key => repr_key
  | IndexError msg => msg
  | AttributeError msg => msg
  | RuntimeError msg => msg
  | OSError msg => msg
  | SecretNotFoundError key => "Secret " ++ key ++ " does not exist."
  end.

Definition type_name (v : json) : string :=
  match v with
  | JNull => "NoneType"
  | JBool _ => "bool"
  | JNum _ => "float"
  | JStr _ => "str"
  | JArr _ => "list"
  | JObj _ => "dict"
  end.

(** [repr] of a string key (quotes inside the key are not escaped) and of an
    integer key. *)
Definition repr_str (k : string) : string := "'" ++ k ++ "'".
Definition repr_int (i : Z) : string := NilZero.string_of_int (Z.to_int i).

Fixpoint assoc (k : string) (kv : list (string * json)) : option json :=
  match kv with
  | [] => None
  | (k', v) :: rest => if String.eqb k k' then Some v else assoc k rest
  end.

Fixpoint assoc_set (k : string) (v : json) (kv : list (string * json))
  : list (string * json) :=
  match kv with
  | [] => [(k, v)]
  | (k', v') :: rest =>
      if String.eqb k k' then (k', v) :: rest else (k', v') :: assoc_set k v rest
  end.

(** [v[k]] for a string key [k]. *)
Definition getitem_key (v : json) (k : string) : exn + json :=
  match v with
  | JObj kv =>
      match assoc k kv with
      | Some x => inr x
      | None => inl (KeyError (repr_str k))
      end
  | JArr _ => inl (TypeError "list indices must be integers or slices, not str")
  | JStr _ => inl (TypeError "string indices must be integers, not 'str'")
  | _ => inl (TypeError ("'" ++ type_name v ++ "' object is not subscriptable"))
  end.

(** Position of [i] in a sequence of length [n]: negative positions count
    from the end. *)
Definition wrap_index (n : nat) (i : Z) : option nat :=
  let j := if i <? 0 then i + Z.of_nat n else i in
  if (0 <=? j) && (j <? Z.of_nat n) then Some (Z.to_nat j) else None.

(** [v[i]] for an integer [i]. *)
Definition getitem_int (v : json) (i : Z) : exn + json :=
  match v with
  | JArr l =>
      match wrap_index (List.length l) i with
      | Some j =>
          match nth_error l j with
          | Some x => inr x
          | None => inl (IndexError "list index out of range")
          end
      | None => inl (IndexError "list index out of range")
      end
  | JStr s =>
      match wrap_index (String.length s) i with
      | Some j =>
          match String.get j s with
          | Some c => inr (JStr (String c EmptyString))
          | None => inl (IndexError "string index out of range")
          end
      | None => inl (IndexError "string index out of range")
      end
  | JObj _ => inl (KeyError (repr_int i))
  | _ => inl (TypeError ("'" ++ type_name v ++ "' object is not subscriptable"))
  end.

(** [c[k].append(item)]: the list stored under [k] is extended in place. *)
Definition append_at (c : json) (k : string) (item : json) : exn + json :=
  match getitem_key c k with
  | inl e => inl e
  | inr (JArr l) =>
      match c with
      | JObj kv => inr (JObj (assoc_set k (JArr (l ++ [item])) kv))
      | _ => inr c
      end
  | inr v =>
      inl (AttributeError ("'" ++ type_name v ++ "' object has no attribute 'append'"))
  end.

(** ** Binary floating-point numbers

    NumPy's float32 and Python's float (binary64), as far as the notebook
    uses them: a decimal literal or a computed number is rounded to the
    nearest number of the format, and two numbers are compared. *)

Definition pow2 (e : Z) : Q := (2 ^ e)%Q.

(** The integer part of the binary logarithm of a positive rational. *)
Definition ilog2 (q : Q) : Z :=
  let k := Z.log2 (Qnum q) - Z.log2 (Zpos (Qden q)) in
  if Qle_bool (pow2 k) q then k else k - 1.

(** The nearest integer, the even one of two that are equally near. *)
Definition round_half_even (x : Q) : Z :=
  let f := Qfloor x in
  match (x - inject_Z f ?= 1 # 2)%Q with
  | Lt => f
  | Gt => f + 1
  | Eq => if Z.even f then f else f + 1
  end.

(** The nearest multiple of [2 ^ e]. *)
Definition round_to_multiple (e : Z) (q : Q) : Q :=
  (inject_Z (round_half_even (q / pow2 e)) * pow2 e)%Q.

(** The exponent of the last place of a positive number in a format with
    [prec] significant bits and exponents below [emax]: it does not go below
    that of the subnormal numbers. *)
Definition ulp_exponent (prec emax : Z) (q : Q) : Z :=
  Z.max (3 - emax - prec) (ilog2 q + 1 - prec).

(** A positive number, rounded; from [2 ^ emax] on the result is infinite,
    which [2 ^ emax] itself stands for. *)
Definition round_magnitude (prec emax : Z) (q : Q) : Q :=
  let r := round_to_multiple (ulp_exponent prec emax q) q in
  if Qle_bool (pow2 emax) r then pow2 emax else r.

Definition binary_round (prec emax : Z) (q : Q) : Q :=
  match (q ?= 0)%Q with
  | Eq => 0%Q
  | Gt => Qred (round_magnitude prec emax q)
  | Lt => Qred (- round_magnitude prec emax (- q))
  end.

(** [np.float32(q)] and [float(q)]. *)
Definition float32 : Q -> Q := binary_round 24 128.
Definition float64 : Q -> Q := binary_round 53 1024.

(** ** Vectors and the FAISS index *)

Definition vec := list Q.

(** Squared Euclidean distance: the sum of squared per-dimension differences. *)
Fixpoint L2sqr (x y : vec) : Q :=
  match x, y with
  | a :: x', b :: y' => ((a - b) * (a - b) + L2sqr x' y')%Q
  | _, _ => 0%Q
  end.

Definition Qlt_bool (a b : Q) : bool := negb (Qle_bool b a).

(** [faiss.IndexFlatL2(d)]: the vectors added so far, in insertion order.
    [ntotal] is their number; a vector's label is its position. *)
Record IndexFlatL2 : Type := mkIndex {
  ix_d : nat;
  ix_xb : list vec
}.

Definition ntotal (ix : IndexFlatL2) : nat := List.length (ix_xb ix).

Definition EMBED_DIM : nat := 768.

(** Largest finite float32: the distance FAISS reports, with label -1, for a
    result slot it could not fill. *)
Definition FLT_MAX : Q := 340282346638528859811704183484516925440 # 1.

(** Exhaustive scan keeping the best (distance, label) so far; a later vector
    replaces it only when strictly nearer. *)
Fixpoint scan (x : vec) (ys : list vec) (i : Z) (best : Q * Z) : Q * Z :=
  match ys with
  | [] => best
  | y :: ys' =>
      let dis := L2sqr x y in
      scan x ys' (i + 1) (if Qlt_bool dis (fst best) then (dis, i) else best)
  end.

(** The single nearest neighbour of [x] among [ys]: distance and label of the
    first vector at minimal distance, or [FLT_MAX] and -1 when there is no
    vector at all. *)
Definition nearest (x : vec) (ys : list vec) : Q * Z :=
  match ys with
  | [] => (FLT_MAX, -1)
  | y :: ys' => scan x ys' 1 (L2sqr x y, 0)
  end.

(** [D, I = index.search(x, 1)] for a single query row [x]: the pair
    [(D[0][0], I[0][0])], with the distance as it is before FAISS rounds it
    to a float32 number; the guard of [ask] compares the rounded number.
    The Python wrapper asserts the dimension. *)
Definition index_search (ix : IndexFlatL2) (x : vec) : exn + (Q * Z) :=
  if Nat.eqb (List.length x) (ix_d ix) then inr (nearest x (ix_xb ix))
  else inl AssertionError.

(** [index.add(x)] for a single row [x]. *)
Definition index_add (ix : IndexFlatL2) (x : vec) : exn + IndexFlatL2 :=
  if Nat.eqb (List.length x) (ix_d ix) then inr (mkIndex (ix_d ix) (ix_xb ix ++ [x]))
  else inl AssertionError.

(** ** The world a [SemanticCaching] object lives in *)

(** Content of the cache file, as [json.load] sees it. *)
Inductive file : Type :=
| NotJson (text : string)
| JsonDoc (v : json).

(** External effects, most recent first in the log. *)
Inductive event : Type :=
| EvOpenRead
| EvOpenWrite
| EvPost (query : list string).

(** What [requests.post] does when called. [body = None]: the response text
    is not valid JSON. *)
Inductive http_outcome : Type :=
| RequestException (msg : string)
| Response (status_code : Z) (body : option json).

(** The embedding model and the credential store.  The encoder returns one
    row of [EMBED_DIM] numbers for one input text; [api_key] is the value of
    the Colab secret [ARES_API_KEY], [None] when there is no such secret. *)
Record Env : Type := mkEnv {
  encode : string -> vec;
  encode_dim : forall s, List.length (encode s) = EMBED_DIM;
  api_key : option string
}.

(** The attributes of a [SemanticCaching] object ([index],
    [euclidean_threshold], [json_file], [cache]) and the world around it: the
    file at [json_file] ([disk], [None] when it does not exist), what
    [open(json_file, 'w')] raises when the file cannot be opened for writing
    ([write_error]: the directory is missing, the file or the directory is
    protected, the path is a directory; [None] when it can be opened), and
    the log of the external effects performed. *)
Record state : Type := mkState {
  index : IndexFlatL2;
  euclidean_threshold : Q;
  json_file : string;
  cache : json;
  disk : option file;
  write_error : option exn;
  log : list event
}.

Definition set_index (ix : IndexFlatL2) (st : state) : state :=
  mkState ix (euclidean_threshold st) (json_file st) (cache st) (disk st)
          (write_error st) (log st).
Definition set_cache (c : json) (st : state) : state :=
  mkState (index st) (euclidean_threshold st) (json_file st) c (disk st)
          (write_error st) (log st).
Definition set_disk (f : option file) (st : state) : state :=
  mkState (index st) (euclidean_threshold st) (json_file st) (cache st) f
          (write_error st) (log st).
Definition add_event (e : event) (st : state) : state :=
  mkState (index st) (euclidean_threshold st) (json_file st) (cache st) (disk st)
          (write_error st) (e :: log st).

(** ** State-and-exception monad *)

Definition M (A : Type) : Type := state -> (exn + A) * state.

Definition ret {A} (a : A) : M A := fun st => (inr a, st).
Definition raise {A} (e : exn) : M A := fun st => (inl e, st).
Definition bind {A B} (m : M A) (k : A -> M B) : M B :=
  fun st =>
    match m st with
    | (inr a, st') => k a st'
    | (inl e, st') => (inl e, st')
    end.
Definition get : M state := fun st => (inr st, st).
Definition modify (f : state -> state) : M unit := fun st => (inr tt, f st).
Definition lift {A} (r : exn + A) : M A := fun st => (r, st).
(** [try: body / except Exception as e: handler e] *)
Definition try_except {A} (body : M A) (handler : exn -> M A) : M A :=
  fun st =>
    match body st with
    | (inr a, st') => (inr a, st')
    | (inl e, st') => handler e st'
    end.

(** [try: body / except FileNotFoundError: handler]: other exceptions pass. *)
Definition try_except_FileNotFoundError {A} (body : M A) (handler : M A) : M A :=
  fun st =>
    match body st with
    | (inl (FileNotFoundError _), st') => handler st'
    | r => r
    end.

Declare Scope py_scope.
Delimit Scope py_scope with py.
Notation "x <- m ;; k" := (bind m (fun x => k))
  (at level 61, m at next level, right associativity) : py_scope.
Notation "m ;;; k" := (bind m (fun _ => k))
  (at level 61, right associativity) : py_scope.
Local Open Scope py_scope.

(** ** make_prediction *)

(** [userdata.get(key)]: the value of the secret; when there is no such
    secret it raises. *)
Definition userdata_get (E : Env) (key : string) : M string :=
  match api_key E with
  | Some value => ret value
  | None => raise (SecretNotFoundError key)
  end.

(** [not s] for a string [s]. *)
Definition is_empty (s : string) : bool :=
  match s with
  | EmptyString => true
  | String _ _ => false
  end.

(** [out] is what [requests.post] does if this call reaches it. *)
Definition make_prediction (E : Env) (out : http_outcome) (data : list string)
  : M json :=
  value <- userdata_get E "ARES_API_KEY" ;;
  if is_empty value then
    raise (RuntimeError "Missing ARES_API_KEY in Colab userdata")
  else
    modify (add_event (EvPost data)) ;;;
    match out with
    | Response status_code body =>
        if status_code =? 200 then
          match body with
          | Some v => ret v
          | None => ret JNull
          end
        else ret JNull
    | RequestException _ => ret JNull
    end.

(** ** SemanticCaching *)

Definition empty_cache : json :=
  JObj [("questions", JArr []); ("embeddings", JArr []);
        ("answers", JArr []); ("response_text", JArr [])].

(** [open(self.json_file, 'w')] and [json.dump]: the whole file is replaced.
    When the file cannot be opened, [open] raises and the file is left as it
    is. *)
Definition save_cache : M unit :=
  st <- get ;;
  match write_error st with
  | Some e => raise e
  | None =>
      modify (add_event EvOpenWrite) ;;;
      modify (fun st => set_disk (Some (JsonDoc (cache st))) st)
  end.

Definition clear_cache : M unit :=
  modify (set_cache empty_cache) ;;;
  modify (set_index (mkIndex EMBED_DIM [])) ;;;
  save_cache.

(** [open(self.json_file, 'r')] *)
Definition open_read : M file :=
  modify (add_event EvOpenRead) ;;;
  st <- get ;;
  match disk st with
  | None => raise (FileNotFoundError (json_file st))
  | Some f => ret f
  end.

(** [json.load(file)] *)
Definition json_load (f : file) : M json :=
  match f with
  | NotJson _ => raise JSONDecodeError
  | JsonDoc v => ret v
  end.

Definition load_cache : M unit :=
  try_except_FileNotFoundError
    (f <- open_read ;;
     v <- json_load f ;;
     modify (set_cache v))
    (modify (set_cache empty_cache)).

(** [SemanticCaching(json_file, clear_on_init)] in a world whose file at
    [json_file] is [disk0] and where opening it for writing raises
    [write_error0], if anything.  The threshold is the Python float [0.3].
    The attribute [cache] does not exist until [clear_cache] or [load_cache]
    assigns it; [JNull] stands for that. *)
Definition init (json_file0 : string) (clear_on_init : bool)
           (disk0 : option file) (write_error0 : option exn)
           (log0 : list event) : (exn + unit) * state :=
  let st0 := mkState (mkIndex EMBED_DIM []) (float64 (3 # 10)) json_file0 JNull
                     disk0 write_error0 log0 in
  (if clear_on_init then clear_cache else load_cache) st0.

(** Returns the pair [(result, response_text)]. *)
Definition generate_answer (E : Env) (out : http_outcome) (question : string)
  : M (json * json) :=
  try_except
    (result <- make_prediction E out [question] ;;
     data <- lift (getitem_key result "data") ;;
     response_text <- lift (getitem_key data "response_text") ;;
     ret (result, response_text))
    (fun e => raise (RuntimeError ("Error during 'generate_answer' method: " ++ str e))).

(** [self.cache[k].append(item)] *)
Definition cache_append (k : string) (item : json) : M unit :=
  st <- get ;;
  c <- lift (append_at (cache st) k item) ;;
  modify (set_cache c).

(** [embedding[0].tolist()] *)
Definition tolist (x : vec) : json := JArr (map JNum x).

(** Lines 324-325: the two nested conditions guarding the hit branch.  [D]
    is an array of float32 numbers and the threshold a Python float: NumPy
    (version 2, where a Python number takes the type of the array) compares
    them as float32 numbers, the threshold converted. *)
Definition hit_guard (thr : Q) (DI : Q * Z) : bool :=
  let (D, I) := DI in
  if Qle_bool 0 (float32 D)
  then negb (I =? -1) && Qle_bool (float32 D) (float32 thr)
  else false.

(** Lines 326-329: [return self.cache['response_text'][row_id]]. *)
Definition ask_hit (row_id : Z) : M json :=
  st <- get ;;
  texts <- lift (getitem_key (cache st) "response_text") ;;
  lift (getitem_int texts row_id).

(** Lines 332-343: generate, append to the four lists, add to the index,
    save, return the text. *)
Definition ask_miss (E : Env) (out : http_outcome) (question : string)
           (embedding : vec) : M json :=
  ar <- generate_answer E out question ;;
  let (answer, response_text) := ar : json * json in
  cache_append "questions" (JStr question) ;;;
  cache_append "embeddings" (tolist embedding) ;;;
  cache_append "answers" answer ;;;
  cache_append "response_text" response_text ;;;
  (st <- get ;;
   ix <- lift (index_add (index st) embedding) ;;
   modify (set_index ix)) ;;;
  save_cache ;;;
  ret response_text.

(** [ask(question)]; [out] is the provider's behaviour should this call
    reach it. *)
Definition ask (E : Env) (out : http_outcome) (question : string) : M json :=
  try_except
    (let embedding := encode E question in
     st <- get ;;
     DI <- lift (index_search (index st) embedding) ;;
     if hit_guard (euclidean_threshold st) DI
     then ask_hit (snd DI)
     else ask_miss E out question embedding)
    (fun e => raise (RuntimeError ("Error during 'ask' method: " ++ str e))).

(** The branch [ask] takes after probing the index: the outcome of lines
    318-325, before either branch runs. *)
Inductive path : Type :=
| HitPath (row_id : Z)
| MissPath
| ProbeError (e : exn).

Definition ask_path (E : Env) (st : state) (question : string) : path :=
  match index_search (index st) (encode E question) with
  | inl e => ProbeError e
  | inr DI =>
      if hit_guard (euclidean_threshold st) DI then HitPath (snd DI) else MissPath
  end.

(** The [except Exception] clause of [ask]. *)
Definition ask_guarded {A} (body : M A) : M A :=
  try_except body
    (fun e => raise (RuntimeError ("Error during 'ask' method: " ++ str e))).

(** Number of requests sent to the answer provider so far. *)
Definition provider_calls (st : state) : nat :=
  List.length (filter (fun e => match e with EvPost _ => true | _ => false end) (log st)).

(** Length of the list stored under [k], when there is one. *)
Definition entry_count (c : json) (k : string) : option nat :=
  match getitem_key c k with
  | inr (JArr l) => Some (List.length l)
  | _ => None
  end.

(** ** Notions the properties are stated with *)

(** States an object can be in: after its construction, and after any [ask]
    or [clear_cache] whatever their result. *)
Inductive reachable (E : Env) : state -> Prop :=
| reach_init json_file0 clear_on_init disk0 write_error0 log0 st :
    init json_file0 clear_on_init disk0 write_error0 log0 = (inr tt, st) ->
    reachable E st
| reach_ask out question st r st' :
    reachable E st ->
    ask E out question st = (r, st') ->
    reachable E st'
| reach_clear st r st' :
    reachable E st ->
    clear_cache st = (r, st') ->
    reachable E st'.

(** States reached without loading an existing file: the object started with
    no cache file or with [clear_on_init], or was cleared later. *)
Inductive fresh_reachable (E : Env) : state -> Prop :=
| fresh_no_file json_file0 clear_on_init write_error0 log0 st :
    init json_file0 clear_on_init None write_error0 log0 = (inr tt, st) ->
    fresh_reachable E st
| fresh_clear_on_init json_file0 disk0 write_error0 log0 st :
    init json_file0 true disk0 write_error0 log0 = (inr tt, st) ->
    fresh_reachable E st
| fresh_clear st r st' :
    reachable E st ->
    clear_cache st = (r, st') ->
    fresh_reachable E st'
| fresh_ask out question st r st' :
    fresh_reachable E st ->
    ask E out question st = (r, st') ->
    fresh_reachable E st'.

(** A vector is nearest to [x] among [ys]. *)
Definition is_nearest (x : vec) (ys : list vec) (v : vec) : Prop :=
  In v ys /\ forall w, In w ys -> (L2sqr x v <= L2sqr x w)%Q.

(** The index has the dimension the constructor gives it. *)
Definition index_dim_ok (st : state) : Prop := ix_d (index st) = EMBED_DIM.

(** [cache['response_text']] is a list with at least [slack] more elements
    than the index has vectors. *)
Definition texts_cover (slack : nat) (st : state) : Prop :=
  exists rs, getitem_key (cache st) "response_text" = inr (JArr rs) /\
             (ntotal (index st) + slack <= List.length rs)%nat.

Definition hit_safe (st : state) : Prop :=
  index_dim_ok st /\ (ntotal (index st) = 0%nat \/ texts_cover 0 st).

(** [result['data']['response_text']] *)
Definition extract_text (result : json) : exn + json :=
  match getitem_key result "data" with
  | inl e => inl e
  | inr data => getitem_key data "response_text"
  end.

(** No usable credential: the secret is not there, or it is empty. *)
Definition key_missing (k : option string) : bool :=
  match k with
  | None => true
  | Some EmptyString => true
  | Some _ => false
  end.

(** The ways a call to the answer provider fails: the credential is missing,
    the request raises, the status is not 200, the body is not JSON, or the
    JSON body has no [data.response_text]. *)
Inductive provider_failure (E : Env) : http_outcome -> Prop :=
| fail_credential out :
    key_missing (api_key E) = true -> provider_failure E out
| fail_request msg :
    provider_failure E (RequestException msg)
| fail_status status_code body :
    status_code <> 200 -> provider_failure E (Response status_code body)
| fail_not_json status_code :
    provider_failure E (Response status_code None)
| fail_payload status_code v e :
    extract_text v = inl e -> provider_failure E (Response status_code (Some v)).

(** What [make_prediction] returns once the request was sent: the parsed
    body of a response with status 200, and [None] in every other case. *)
Definition returned_json (out : http_outcome) : json :=
  match out with
  | Response status_code (Some v) => if status_code =? 200 then v else JNull
  | _ => JNull
  end.

Definition generate_prefix : string := "Error during 'generate_answer' method: ".
Definition ask_prefix : string := "Error during 'ask' method: ".
Definition missing_key_text : string := "Missing ARES_API_KEY in Colab userdata".

(** One cached answer: the question, the provider's payload and the text
    taken from it. *)
Record entry : Type := mkEntry {
  e_question : string;
  e_answer : json;
  e_text : json
}.

Definition mk_cache (qs es ans rs : list json) : json :=
  JObj [("questions", JArr qs); ("embeddings", JArr es);
        ("answers", JArr ans); ("response_text", JArr rs)].

Definition embedding_of (E : Env) (e : entry) : vec := encode E (e_question e).

Definition cache_of (E : Env) (entries : list entry) : json :=
  mk_cache (map (fun e => JStr (e_question e)) entries)
           (map (fun e => tolist (embedding_of E e)) entries)
           (map e_answer entries)
           (map e_text entries).

Definition index_of (E : Env) (entries : list entry) : IndexFlatL2 :=
  mkIndex EMBED_DIM (map (embedding_of E) entries).

(** Index and lists in lockstep: the index holds the embeddings of
    [entries], in order, and the four lists of the cache hold their
    questions, embeddings, answers and texts, in the same order. *)
Definition aligned (E : Env) (entries : list entry) (st : state) : Prop :=
  index st = index_of E entries /\ cache st = cache_of E entries.

(** Hoare triples for the method monad.  [hoare P m Q]: started in a state
    satisfying [P], [m] ends (normally or by raising) with a result and a
    state related by [Q]. *)
Definition hoare {A} (P : state -> Prop) (m : M A)
           (Q : exn + A -> state -> Prop) : Prop :=
  forall st, P st -> Q (fst (m st)) (snd (m st)).

(** A method that keeps [P] whatever its result. *)
Definition keeps {A} (P : state -> Prop) (m : M A) : Prop :=
  hoare P m (fun _ st => P st).

(** ** Test fixtures *)

(** A vector of [EMBED_DIM] numbers, zero except for its first coordinate. *)
Definition axis (x : Q) : vec := x :: repeat 0%Q (EMBED_DIM - 1).

Definition axis_length (x : Q) : List.length (axis x) = EMBED_DIM :=
  f_equal S (repeat_length 0%Q (EMBED_DIM - 1)).

Definition q_france : string := "What is the capital of France?".
Definition q_apple : string := "Who is the CEO of Apple?".
Definition q_facebook : string := "Who is the CEO of Facebook?".
Definition q_ceo : string := "Who is the CEO?".

Definition demo_coordinate (s : string) : Q :=
  if String.eqb s q_apple then (-4 # 10)
  else if String.eqb s q_facebook then (3 # 10)
  else if String.eqb s q_ceo then 0
  else if String.eqb s q_france then 5
  else 100.

Definition demo_env : Env :=
  mkEnv (fun s => axis (demo_coordinate s))
        (fun s => axis_length (demo_coordinate s))
        (Some "secret").

Definition payload (text : string) : json :=
  JObj [("data", JObj [("response_text", JStr text)])].

Definition answers_with (text : string) : http_outcome :=
  Response 200 (Some (payload text)).

Definition run_init (disk0 : option file) : state :=
  snd (init "cache.json" false disk0 None []).

Definition run_ask (E : Env) (out : http_outcome) (question : string)
           (st : state) : state :=
  snd (ask E out question st).

(** A cache file left by an earlier session that answered one question. *)
Definition stale_file : file :=
  JsonDoc (JObj [("questions", JArr [JStr q_france]);
                 ("embeddings", JArr [tolist (axis 5)]);
                 ("answers", JArr [payload "Paris"]);
                 ("response_text", JArr [JStr "Paris"])]).

(** A cache file whose four lists do not have the same length. *)
Definition ragged_file : file :=
  JsonDoc (JObj [("questions", JArr [JStr q_france; JStr q_apple]);
                 ("embeddings", JArr []);
                 ("answers", JArr [payload "Paris"]);
                 ("response_text", JArr [])]).

Definition two_ceos : state :=
  run_ask demo_env (answers_with "Mark Zuckerberg") q_facebook
          (run_ask demo_env (answers_with "Tim Cook") q_apple (run_init None)).

Definition restarted : state := run_init (Some stale_file).





(** ** Sequences of calls, and what a cache is made of *)

(** One call a user of the object makes. *)
Inductive op : Type :=
| Ask (question : string) (out : http_outcome)
| Clear.

Definition run_op (E : Env) (o : op) (st : state) : state :=
  match o with
  | Ask question out => snd (ask E out question st)
  | Clear => snd (clear_cache st)
  end.

(** The calls of a session, one after the other; a call that raises does
    not stop the next one, as with one call per notebook cell. *)
Definition run_ops (E : Env) (ops : list op) (st : state) : state :=
  fold_left (fun s o => run_op E o s) ops st.

Definition is_ask (o : op) : bool :=
  match o with Ask _ _ => true | Clear => false end.

(** The lists of a loaded cache file, followed by the entries stored since
    the object was constructed or cleared; the index holds the embeddings of
    those entries only. *)
Definition shifted (E : Env) (lq le la lr : list json) (entries : list entry)
           (st : state) : Prop :=
  index st = index_of E entries /\
  cache st = mk_cache (lq ++ map (fun e => JStr (e_question e)) entries)
                      (le ++ map (fun e => tolist (embedding_of E e)) entries)
                      (la ++ map e_answer entries)
                      (lr ++ map e_text entries).




(** What [ask] may have done to the request count and to the index. *)
Definition one_step (st s : state) : Prop :=
  (provider_calls st <= provider_calls s <= provider_calls st + 1)%nat /\
  (ntotal (index st) <= ntotal (index s) <= ntotal (index st) + 1)%nat /\
  (ntotal (index s) = (ntotal (index st) + 1)%nat ->
   provider_calls s = (provider_calls st + 1)%nat).

(** How the miss branch can end, by what it did to the index, the log and
    the file: nothing but possibly one request; or one request and one more
    vector, and then the file rewritten with the cache or, when it cannot
    be opened, left alone and the exception of [open] raised. *)
Definition footprint (st : state) (x : vec) (question : string)
           (r : exn + json) (s : state) : Prop :=
  (ix_xb (index s) = ix_xb (index st) /\ disk s = disk st /\
   (log s = log st \/ log s = EvPost [question] :: log st))
  \/
  (ix_xb (index s) = (ix_xb (index st) ++ [x])%list /\
   match write_error st with
   | None =>
       log s = EvOpenWrite :: EvPost [question] :: log st /\
       disk s = Some (JsonDoc (cache s))
   | Some e =>
       log s = EvPost [question] :: log st /\ disk s = disk st /\ r = inl e
   end).

(** The four keys [ask] appends under, in the order it does. *)
Definition cache_keys : list string :=
  ["questions"; "embeddings"; "answers"; "response_text"].

(** The cache has no list under [k]: it is not a dictionary, the key is
    missing, or the value is not a list. *)
Definition no_list_at (k : string) (c : json) : Prop :=
  forall l, getitem_key c k <> inr (JArr l).

(** An object whose cache lacks one of the four lists and whose index is
    empty, as after construction on such a file. *)
Definition broken (st : state) : Prop :=
  index_dim_ok st /\ ntotal (index st) = 0%nat /\
  exists k, In k cache_keys /\ no_list_at k (cache st).

(** * Module_1/Agentic_RAG/Upload_data_to_Qdrant_Notebook.ipynb

    The notebook's own logic: reading the text of a PDF, scanning a folder
    for PDF files, giving every chunk its metadata, building the points to
    upload and creating a collection unless it exists.  PyMuPDF, [os], the
    text splitter, the embedding model, [uuid] and the Qdrant client are
    external; the file system, the embedding function and the drawn UUIDs are
    parameters. *)

From Stdlib Require Import Ascii.

Module Upload.

(** [c.lower()] on one byte of a UTF-8 string: ASCII capitals are the only
    bytes whose lowering can produce the ASCII text [.pdf]. *)
Definition lower_ascii (c : ascii) : ascii :=
  let n := nat_of_ascii c in
  if Nat.leb 65 n && Nat.leb n 90 then ascii_of_nat (n + 32) else c.

Fixpoint lower (s : string) : string :=
  match s with
  | EmptyString => EmptyString
  | String c s' => String (lower_ascii c) (lower s')
  end.

(** [s.endswith(suffix)] *)
Definition endswith (s suffix : string) : bool :=
  let n := String.length s in
  let m := String.length suffix in
  if Nat.leb m n then String.eqb (substring (n - m) m s) suffix else false.

(** [_f.lower().endswith(".pdf")] *)
Definition is_pdf_name (f : string) : bool := endswith (lower f) ".pdf".

(** [os.path.join(a, b)] for POSIX paths. *)
Definition path_join (a b : string) : string :=
  if prefix "/" b then b
  else if (String.length a =? 0)%nat || endswith a "/" then a ++ b
  else a ++ "/" ++ b.

(** The PDF files of the file system: the page texts [page.get_text()]
    gives for the document at a path, or the exception [fitz.open] raises. *)
Definition pdf_store : Type := string -> exn + list string.

(** Lines 111-138. *)
Definition read_text_pymupdf (pdfs : pdf_store) (path : string) : exn + string :=
  match pdfs path with
  | inl e => inl e
  | inr pages => inr (fold_left String.append pages EmptyString)
  end.

(** The loop of lines 166-171 (and 174-179) over the names [os.listdir]
    returned, from the lists [docs] and [seen] built so far.  The result
    carries the two lists as they are when the loop ends or raises. *)
Fixpoint scan_folder (pdfs : pdf_store) (folder : string) (names : list string)
         (docs seen : list string) : (exn + unit) * (list string * list string) :=
  match names with
  | [] => (inr tt, (docs, seen))
  | f :: rest =>
      if is_pdf_name f && negb (existsb (String.eqb f) seen) then
        match read_text_pymupdf pdfs (path_join folder f) with
        | inl e => (inl e, (docs, seen))
        | inr text => scan_folder pdfs folder rest (docs ++ [text])%list (f :: seen)
        end
      else scan_folder pdfs folder rest docs seen
  end.

(** A chunk: langchain's [Document], with the metadata dictionary the
    notebook fills with strings. *)
Record Document : Type := mkDocument {
  page_content : string;
  metadata : list (string * string)
}.

Fixpoint dict_get (k : string) (d : list (string * string)) : option string :=
  match d with
  | [] => None
  | (k', v) :: rest => if String.eqb k k' then Some v else dict_get k rest
  end.

(** [d[k] = v] *)
Fixpoint dict_set (k v : string) (d : list (string * string))
  : list (string * string) :=
  match d with
  | [] => [(k, v)]
  | (k', v') :: rest =>
      if String.eqb k k' then (k', v) :: rest else (k', v') :: dict_set k v rest
  end.

(** Lines 261-269 (and 285-293): chunk number [i] gets the folder path and
    the UUID drawn at iteration [i]; [uuid4 i] is that draw. *)
Fixpoint assign_metadata (document_path : string) (uuid4 : nat -> string)
         (i : nat) (chunks : list Document) : list Document :=
  match chunks with
  | [] => []
  | d :: rest =>
      mkDocument (page_content d)
                 (dict_set "uuid" (uuid4 i)
                           (dict_set "document_info" document_path (metadata d)))
      :: assign_metadata document_path uuid4 (S i) rest
  end.

(** Lines 384 and 388: one embedding per chunk. *)
Definition embed_chunks (get_text_embeddings : string -> vec)
           (chunks : list Document) : list vec :=
  map (fun d => get_text_embeddings (page_content d)) chunks.

Record PointStruct : Type := mkPoint {
  id : string;
  vector : vec;
  payload_metadata : list (string * string);
  payload_content : string
}.

(** Lines 527-539 (and 556-568): the list comprehension over
    [enumerate(chunks)], from position [idx]. *)
Fixpoint build_points (embedded : list vec) (idx : nat) (chunks : list Document)
  : exn + list PointStruct :=
  match chunks with
  | [] => inr []
  | doc :: rest =>
      match dict_get "uuid" (metadata doc) with
      | None => inl (KeyError (repr_str "uuid"))
      | Some u =>
          match nth_error embedded idx with
          | None => inl (IndexError "list index out of range")
          | Some x =>
              match build_points embedded (S idx) rest with
              | inl e => inl e
              | inr points =>
                  inr (mkPoint u x (metadata doc) (page_content doc) :: points)
              end
          end
      end
  end.

(** The collections of the Qdrant client: name and vector size. *)
Definition collections : Type := list (string * nat).

Definition collection_exists (name : string) (cs : collections) : bool :=
  existsb (fun c => String.eqb name (fst c)) cs.

(** Lines 454-465 (and 478-489). *)
Definition create_if_missing (name : string) (size : nat) (cs : collections)
  : collections :=
  if collection_exists name cs then cs else (cs ++ [(name, size)])%list.

(** What one successful read returns: the page texts, one after the other. *)
Definition reads (pdfs : pdf_store) (folder f text : string) : Prop :=
  exists pages,
    pdfs (path_join folder f) = inr pages /\
    text = String.concat EmptyString pages.

(** The chunk has a UUID in its metadata. *)
Definition has_uuid (d : Document) : Prop := dict_get "uuid" (metadata d) <> None.

End Upload.

(** ** More fixtures *)


(** An object on a path that cannot be opened for writing: its folder does
    not exist. *)
Definition no_folder : state :=
  snd (init "missing/cache.json" false None
            (Some (FileNotFoundError "missing/cache.json")) []).

(** An object constructed on a file that holds an empty dictionary. *)
Definition on_empty_dict : state := run_init (Some (JsonDoc (JObj []))).

Definition demo_session : list op :=
  [Ask q_apple (answers_with "Tim Cook"); Ask q_apple (Response 500 None);
   Ask q_facebook (answers_with "Mark Zuckerberg")].

(** A folder where every PDF but [b.pdf] opens, with two pages each. *)
Definition demo_pdfs : Upload.pdf_store :=
  fun path =>
    if String.eqb path "docs/b.pdf" then inl (RuntimeError "cannot open")
    else inr [path; "!"].

(** * Properties *)

(** ** Rounding to a binary floating-point format *)

Lemma pow2_pos (e : Z) : (0 < pow2 e)%Q.
Proof. apply Qpower_0_lt. reflexivity. Qed.

Lemma pow2_plus (a b : Z) : (pow2 (a + b) == pow2 a * pow2 b)%Q.
Proof. apply Qpower_plus. discriminate. Qed.

Lemma pow2_le (a b : Z) : a <= b -> (pow2 a <= pow2 b)%Q.
Proof. intro H. apply Qpower_le_compat_l; [exact H | discriminate]. Qed.

Lemma pow2_lt_inv (a b : Z) : (pow2 a < pow2 b)%Q -> a < b.
Proof. intro H. apply (Qpower_lt_compat_l_inv 2); [exact H | reflexivity]. Qed.

Lemma pow2_Z (k : Z) : 0 <= k -> (pow2 k == inject_Z (2 ^ k))%Q.
Proof. intro H. unfold pow2. now rewrite Zpower_Qpower. Qed.

Lemma Qmake_times_den (n : Z) (d : positive) :
  ((n # d) * inject_Z (Zpos d) == inject_Z n)%Q.
Proof. unfold Qeq, Qmult, inject_Z. simpl. lia. Qed.

(** [ilog2 q] is the integer part of the binary logarithm of [q]. *)
Lemma ilog2_spec (q : Q) :
  (0 < q)%Q -> (pow2 (ilog2 q) <= q)%Q /\ (q < pow2 (ilog2 q + 1))%Q.
Proof.
  intro Hq. destruct q as [n d].
  assert (Hn : 0 < n) by (unfold Qlt in Hq; simpl in Hq; lia).
  unfold ilog2. simpl Qnum. simpl Qden.
  set (a := Z.log2 n). set (b := Z.log2 (Zpos d)).
  assert (Ha : 2 ^ a <= n < 2 ^ (a + 1))
    by (unfold a; rewrite Z.add_1_r; now apply Z.log2_spec).
  assert (Hb : 2 ^ b <= Zpos d < 2 ^ (b + 1))
    by (unfold b; rewrite Z.add_1_r; now apply Z.log2_spec).
  assert (Ha0 : 0 <= a) by apply Z.log2_nonneg.
  assert (Hb0 : 0 <= b) by apply Z.log2_nonneg.
  assert (Hupper : (n # d < pow2 (a - b + 1))%Q).
  { apply Qmult_lt_r with (z := pow2 b); [apply pow2_pos|].
    rewrite <- pow2_plus. replace (a - b + 1 + b) with (a + 1) by lia.
    apply Qle_lt_trans with (y := inject_Z n).
    - rewrite <- (Qmake_times_den n d).
      apply Qmult_le_l; [exact Hq|].
      rewrite pow2_Z by exact Hb0. rewrite <- Zle_Qle. lia.
    - rewrite pow2_Z by lia. rewrite <- Zlt_Qlt. lia. }
  assert (Hlower : (pow2 (a - b - 1) <= n # d)%Q).
  { apply Qmult_le_r with (z := pow2 (b + 1)); [apply pow2_pos|].
    rewrite <- pow2_plus. replace (a - b - 1 + (b + 1)) with a by lia.
    apply Qle_trans with (y := inject_Z n).
    - rewrite pow2_Z by exact Ha0. rewrite <- Zle_Qle. lia.
    - rewrite <- (Qmake_times_den n d).
      apply Qmult_le_l; [exact Hq|].
      rewrite pow2_Z by lia. rewrite <- Zle_Qle. lia. }
  destruct (Qle_bool (pow2 (a - b)) (n # d)) eqn:Ht.
  - apply Qle_bool_iff in Ht. split; assumption.
  - split; [exact Hlower|].
    replace (a - b - 1 + 1) with (a - b) by lia.
    apply Qnot_le_lt. intro H. apply Qle_bool_iff in H. congruence.
Qed.

Lemma ilog2_le (p q : Q) : (0 < p)%Q -> (p <= q)%Q -> ilog2 p <= ilog2 q.
Proof.
  intros Hp Hpq.
  assert (Hq : (0 < q)%Q) by (eapply Qlt_le_trans; eauto).
  destruct (ilog2_spec p Hp) as [Hp1 _].
  destruct (ilog2_spec q Hq) as [_ Hq2].
  assert (H : (pow2 (ilog2 p) < pow2 (ilog2 q + 1))%Q).
  { eapply Qle_lt_trans; [exact Hp1|]. eapply Qle_lt_trans; eauto. }
  apply pow2_lt_inv in H. lia.
Qed.

(** ** Rounding to the nearest integer *)

Lemma round_half_even_cases (x : Q) :
  (round_half_even x = Qfloor x /\ (x - inject_Z (Qfloor x) <= 1 # 2)%Q) \/
  (round_half_even x = Qfloor x + 1 /\ (1 # 2 <= x - inject_Z (Qfloor x))%Q).
Proof.
  unfold round_half_even.
  destruct (x - inject_Z (Qfloor x) ?= 1 # 2)%Q eqn:Hc.
  - apply Qeq_alt in Hc. destruct (Z.even (Qfloor x)); [left | right];
      (split; [reflexivity | rewrite Hc; apply Qle_refl]).
  - left. split; [reflexivity|]. apply Qlt_le_weak. now apply Qlt_alt.
  - right. split; [reflexivity|]. apply Qlt_le_weak. now apply Qgt_alt.
Qed.

Lemma round_half_even_Z (k : Z) : round_half_even (inject_Z k) = k.
Proof.
  unfold round_half_even. rewrite Qfloor_Z.
  replace (inject_Z k - inject_Z k ?= 1 # 2)%Q with Lt; [reflexivity|].
  symmetry. apply Qlt_alt.
  setoid_replace (inject_Z k - inject_Z k)%Q with 0%Q by ring. reflexivity.
Qed.

Lemma round_half_even_le (x y : Q) :
  (x <= y)%Q -> round_half_even x <= round_half_even y.
Proof.
  intro Hxy. pose proof (Qfloor_resp_le x y Hxy) as Hf.
  destruct (Z.eq_dec (Qfloor x) (Qfloor y)) as [Heq | Hne].
  - unfold round_half_even. rewrite <- Heq.
    set (f := Qfloor x).
    assert (Hr : (x - inject_Z f <= y - inject_Z f)%Q).
    { apply Qplus_le_l with (z := inject_Z f).
      now ring_simplify. }
    destruct (x - inject_Z f ?= 1 # 2)%Q eqn:Hx;
      destruct (y - inject_Z f ?= 1 # 2)%Q eqn:Hy;
      try (destruct (Z.even f); lia); exfalso.
    + apply Qeq_alt in Hx. apply Qlt_alt in Hy.
      rewrite Hx in Hr. exact (Qlt_not_le _ _ Hy Hr).
    + apply Qgt_alt in Hx. apply Qeq_alt in Hy.
      rewrite Hy in Hr. exact (Qlt_not_le _ _ Hx Hr).
    + apply Qgt_alt in Hx. apply Qlt_alt in Hy.
      apply (Qlt_irrefl (1 # 2)).
      eapply Qlt_le_trans; [exact Hx|]. eapply Qle_trans; [exact Hr|].
      now apply Qlt_le_weak.
  - destruct (round_half_even_cases x) as [[-> _] | [-> _]];
      destruct (round_half_even_cases y) as [[-> _] | [-> _]]; lia.
Qed.

Lemma round_half_even_nonneg (x : Q) : (0 <= x)%Q -> 0 <= round_half_even x.
Proof.
  intro H. rewrite <- (round_half_even_Z 0). now apply round_half_even_le.
Qed.

Lemma round_half_even_comp (x y : Q) :
  (x == y)%Q -> round_half_even x = round_half_even y.
Proof.
  intro H. apply Z.le_antisymm; apply round_half_even_le; rewrite H; apply Qle_refl.
Qed.

(** ** Rounding to a multiple of a power of two *)

Lemma round_to_multiple_le (e : Z) (x y : Q) :
  (x <= y)%Q -> (round_to_multiple e x <= round_to_multiple e y)%Q.
Proof.
  intro H. unfold round_to_multiple.
  apply Qmult_le_compat_r; [|apply Qlt_le_weak, pow2_pos].
  rewrite <- Zle_Qle. apply round_half_even_le.
  unfold Qdiv. apply Qmult_le_compat_r; [exact H|].
  apply Qlt_le_weak, Qinv_lt_0_compat, pow2_pos.
Qed.

Lemma round_to_multiple_fixed (e m : Z) :
  (round_to_multiple e (inject_Z m * pow2 e) == inject_Z m * pow2 e)%Q.
Proof.
  unfold round_to_multiple.
  rewrite (round_half_even_comp _ (inject_Z m)).
  - now rewrite round_half_even_Z.
  - apply Qdiv_mult_l. intro H. pose proof (pow2_pos e) as Hp.
    rewrite H in Hp. discriminate.
Qed.

Lemma pow2_multiple (e k : Z) :
  e <= k -> (pow2 k == inject_Z (2 ^ (k - e)) * pow2 e)%Q.
Proof.
  intro H. rewrite <- pow2_Z by lia. rewrite <- pow2_plus.
  now replace (k - e + e) with k by lia.
Qed.

(** Rounding does not cross a power of two that is a multiple itself. *)
Lemma round_to_multiple_below (e k : Z) (q : Q) :
  e <= k -> (q <= pow2 k)%Q -> (round_to_multiple e q <= pow2 k)%Q.
Proof.
  intros He Hq. rewrite (pow2_multiple e k He) in *.
  rewrite <- round_to_multiple_fixed. now apply round_to_multiple_le.
Qed.

Lemma round_to_multiple_above (e k : Z) (q : Q) :
  e <= k -> (pow2 k <= q)%Q -> (pow2 k <= round_to_multiple e q)%Q.
Proof.
  intros He Hq. rewrite (pow2_multiple e k He) in *.
  rewrite <- round_to_multiple_fixed. now apply round_to_multiple_le.
Qed.

Lemma round_to_multiple_nonneg (e : Z) (q : Q) :
  (0 <= q)%Q -> (0 <= round_to_multiple e q)%Q.
Proof.
  intro H. unfold round_to_multiple.
  apply Qmult_le_0_compat; [|apply Qlt_le_weak, pow2_pos].
  change 0%Q with (inject_Z 0). rewrite <- Zle_Qle.
  apply round_half_even_nonneg. unfold Qdiv.
  apply Qmult_le_0_compat; [exact H|].
  apply Qlt_le_weak, Qinv_lt_0_compat, pow2_pos.
Qed.

(** ** Rounding to a binary format *)

Section Binary.

Variables prec emax : Z.
Hypothesis prec_pos : 1 <= prec.

Lemma round_unbounded_le (p q : Q) :
  (0 < p)%Q -> (p <= q)%Q ->
  (round_to_multiple (ulp_exponent prec emax p) p
   <= round_to_multiple (ulp_exponent prec emax q) q)%Q.
Proof.
  intros Hp Hpq.
  assert (Hq : (0 < q)%Q) by (eapply Qlt_le_trans; eauto).
  pose proof (ilog2_le p q Hp Hpq) as Hlog.
  set (e1 := ulp_exponent prec emax p). set (e2 := ulp_exponent prec emax q).
  assert (He : e1 <= e2) by (unfold e1, e2, ulp_exponent; lia).
  destruct (Z.eq_dec e1 e2) as [Heq | Hne].
  - rewrite <- Heq. now apply round_to_multiple_le.
  - assert (He2 : e2 = ilog2 q + 1 - prec)
      by (unfold e1, e2, ulp_exponent in *; lia).
    assert (Hlt : ilog2 p + 1 <= ilog2 q)
      by (unfold e1, e2, ulp_exponent in *; lia).
    destruct (ilog2_spec p Hp) as [_ Hp2].
    destruct (ilog2_spec q Hq) as [Hq1 _].
    apply Qle_trans with (y := pow2 (ilog2 q)).
    + apply round_to_multiple_below; [lia|].
      apply Qlt_le_weak. eapply Qlt_le_trans; [exact Hp2|]. now apply pow2_le.
    + apply round_to_multiple_above; [lia | exact Hq1].
Qed.

Lemma round_magnitude_le (p q : Q) :
  (0 < p)%Q -> (p <= q)%Q ->
  (round_magnitude prec emax p <= round_magnitude prec emax q)%Q.
Proof.
  intros Hp Hpq. pose proof (round_unbounded_le p q Hp Hpq) as H.
  unfold round_magnitude.
  destruct (Qle_bool (pow2 emax) (round_to_multiple (ulp_exponent prec emax p) p))
    eqn:H1;
    destruct (Qle_bool (pow2 emax) (round_to_multiple (ulp_exponent prec emax q) q))
      eqn:H2.
  - apply Qle_refl.
  - exfalso. apply Qle_bool_iff in H1.
    assert (H3 : Qle_bool (pow2 emax)
                          (round_to_multiple (ulp_exponent prec emax q) q) = true)
      by (apply Qle_bool_iff; eapply Qle_trans; eauto).
    congruence.
  - apply Qlt_le_weak, Qnot_le_lt. intro H3.
    apply Qle_bool_iff in H3. congruence.
  - exact H.
Qed.

Lemma round_magnitude_nonneg (q : Q) :
  (0 <= q)%Q -> (0 <= round_magnitude prec emax q)%Q.
Proof.
  intro H. unfold round_magnitude.
  destruct (Qle_bool _ _); [apply Qlt_le_weak, pow2_pos|].
  now apply round_to_multiple_nonneg.
Qed.

(** Rounding is monotone. *)
Lemma binary_round_le (a b : Q) :
  (a <= b)%Q -> (binary_round prec emax a <= binary_round prec emax b)%Q.
Proof.
  intro Hab. unfold binary_round.
  destruct (Qcompare_spec a 0) as [Ha | Ha | Ha];
    destruct (Qcompare_spec b 0) as [Hb | Hb | Hb];
    rewrite ?Qred_correct.
  - apply Qle_refl.
  - exfalso. rewrite Ha in Hab. exact (Qlt_not_le _ _ Hb Hab).
  - apply round_magnitude_nonneg. now apply Qlt_le_weak.
  - apply (Qopp_le_compat 0), round_magnitude_nonneg.
    apply (Qopp_le_compat a 0). now apply Qlt_le_weak.
  - apply Qopp_le_compat. apply round_magnitude_le.
    + now apply (Qopp_lt_compat b 0).
    + now apply Qopp_le_compat.
  - apply Qle_trans with (y := 0%Q).
    + apply (Qopp_le_compat 0), round_magnitude_nonneg.
      apply (Qopp_le_compat a 0). now apply Qlt_le_weak.
    + apply round_magnitude_nonneg. now apply Qlt_le_weak.
  - exfalso. rewrite Hb in Hab. exact (Qlt_not_le _ _ Ha Hab).
  - exfalso. apply (Qlt_irrefl 0).
    eapply Qlt_le_trans; [exact Ha|]. eapply Qle_trans; [exact Hab|].
    now apply Qlt_le_weak.
  - now apply round_magnitude_le.
Qed.

End Binary.

Lemma float32_le (a b : Q) : (a <= b)%Q -> (float32 a <= float32 b)%Q.
Proof. apply binary_round_le. lia. Qed.

Lemma float32_nonneg (a : Q) : (0 <= a)%Q -> (0 <= float32 a)%Q.
Proof. intro H. change 0%Q with (float32 0). now apply float32_le. Qed.

Lemma float32_comp (a b : Q) : (a == b)%Q -> (float32 a == float32 b)%Q.
Proof.
  intro H. apply Qle_antisym; apply float32_le; rewrite H; apply Qle_refl.
Qed.


(** ** Distances and the nearest-neighbour scan *)

Lemma Qlt_bool_iff (a b : Q) : Qlt_bool a b = true <-> (a < b)%Q.
Proof.
  unfold Qlt_bool. rewrite negb_true_iff. split.
  - intro H. apply Qnot_le_lt. intro Hle.
    apply Qle_bool_iff in Hle. congruence.
  - intro H. destruct (Qle_bool b a) eqn:Hb; [|reflexivity].
    apply Qle_bool_iff in Hb. exfalso. exact (Qlt_not_le _ _ H Hb).
Qed.

Lemma Qlt_bool_false (a b : Q) : Qlt_bool a b = false -> (b <= a)%Q.
Proof.
  unfold Qlt_bool. rewrite negb_false_iff. apply Qle_bool_iff.
Qed.

Lemma square_nonneg (a : Q) : (0 <= a * a)%Q.
Proof.
  destruct a as [n d]. unfold Qle, Qmult. simpl. nia.
Qed.

Lemma L2sqr_nonneg (x y : vec) : (0 <= L2sqr x y)%Q.
Proof.
  revert y. induction x as [|a x IH]; intros [|b y]; simpl;
    try apply Qle_refl.
  replace 0%Q with (0 + 0)%Q by reflexivity.
  apply Qplus_le_compat; [apply square_nonneg | apply IH].
Qed.

Lemma L2sqr_self (x : vec) : (L2sqr x x == 0)%Q.
Proof.
  induction x as [|a x IH]; simpl; [reflexivity|].
  rewrite IH. ring.
Qed.

Lemma FLT_MAX_nonneg : (0 <= FLT_MAX)%Q.
Proof. unfold FLT_MAX, Qle. simpl. lia. Qed.

(** The scan ends on the initial candidate or on a scanned vector, and its
    distance bounds the initial one and every scanned one from below. *)
Lemma scan_spec (x : vec) (ys : list vec) :
  forall (i : Z) (best : Q * Z),
    (fst (scan x ys i best) <= fst best)%Q /\
    (forall w, In w ys -> (fst (scan x ys i best) <= L2sqr x w)%Q) /\
    (scan x ys i best = best \/
     exists k v, nth_error ys k = Some v /\
                 scan x ys i best = (L2sqr x v, i + Z.of_nat k)).
Proof.
  induction ys as [|y ys IH]; intros i best; simpl.
  - split; [apply Qle_refl|]. split; [intros w []|]. now left.
  - set (best' := if Qlt_bool (L2sqr x y) (fst best)
                  then (L2sqr x y, i) else best).
    destruct (IH (i + 1) best') as (Hle & Hall & Hwho).
    assert (Hb : (fst best' <= fst best)%Q /\ (fst best' <= L2sqr x y)%Q).
    { unfold best'. destruct (Qlt_bool (L2sqr x y) (fst best)) eqn:Hlt; simpl.
      - apply Qlt_bool_iff in Hlt. split; [now apply Qlt_le_weak | apply Qle_refl].
      - apply Qlt_bool_false in Hlt. split; [apply Qle_refl | exact Hlt]. }
    destruct Hb as [Hb1 Hb2].
    split; [eapply Qle_trans; eauto|].
    split.
    + intros w [<-|Hw]; [eapply Qle_trans; eauto | now apply Hall].
    + destruct Hwho as [Heq | (k & v & Hk & Heq)].
      * rewrite Heq. unfold best'.
        destruct (Qlt_bool (L2sqr x y) (fst best)).
        -- right. exists 0%nat, y. split; [reflexivity|].
           f_equal. simpl. lia.
        -- now left.
      * right. exists (S k), v. split; [exact Hk|].
        rewrite Heq. f_equal. lia.
Qed.

(** On a non-empty index the search returns the position of a stored vector
    whose distance to the query is minimal, together with that distance. *)
Lemma nearest_spec (x : vec) (ys : list vec) :
  ys <> [] ->
  exists k v, nth_error ys k = Some v /\
              nearest x ys = (L2sqr x v, Z.of_nat k) /\
              is_nearest x ys v.
Proof.
  destruct ys as [|y ys]; [congruence|]. intros _. simpl.
  destruct (scan_spec x ys 1 (L2sqr x y, 0)) as (Hle & Hall & Hwho).
  simpl in Hle.
  destruct Hwho as [Heq | (k & v & Hk & Heq)].
  - exists 0%nat, y. split; [reflexivity|]. split; [exact Heq|].
    split; [now left|]. intros w [<-|Hw]; [apply Qle_refl|].
    specialize (Hall w Hw). rewrite Heq in Hall. exact Hall.
  - exists (S k), v. split; [exact Hk|]. split.
    + rewrite Heq. f_equal. lia.
    + split; [right; eapply nth_error_In; eauto|].
      rewrite Heq in Hle, Hall. simpl in Hle, Hall.
      intros w [<-|Hw]; [exact Hle | now apply Hall].
Qed.

Lemma nearest_empty (x : vec) : nearest x [] = (FLT_MAX, -1).
Proof. reflexivity. Qed.

(** Two nearest vectors are at the same distance. *)
Lemma is_nearest_dist (x : vec) (ys : list vec) (v w : vec) :
  is_nearest x ys v -> is_nearest x ys w -> (L2sqr x v == L2sqr x w)%Q.
Proof.
  intros [Hv Hvmin] [Hw Hwmin]. apply Qle_antisym; auto.
Qed.

(** ** The hit guard *)

Lemma hit_guard_true (thr D : Q) (I : Z) :
  hit_guard thr (D, I) = true <->
  (0 <= float32 D)%Q /\ I <> -1 /\ (float32 D <= float32 thr)%Q.
Proof.
  unfold hit_guard. destruct (Qle_bool 0 (float32 D)) eqn:H0.
  - rewrite andb_true_iff, negb_true_iff, Z.eqb_neq, !Qle_bool_iff.
    apply Qle_bool_iff in H0. tauto.
  - split; [discriminate|]. intros (H & _). apply Qle_bool_iff in H. congruence.
Qed.

(** The label -1 never passes the guard, whatever the distance. *)
Lemma hit_guard_sentinel (thr D : Q) : hit_guard thr (D, -1) = false.
Proof.
  unfold hit_guard. destruct (Qle_bool 0 (float32 D)); reflexivity.
Qed.

Lemma hit_guard_nearest (thr : Q) (x : vec) (ys : list vec) :
  hit_guard thr (nearest x ys) = true <->
  ys <> [] /\
  exists v, is_nearest x ys v /\ (float32 (L2sqr x v) <= float32 thr)%Q.
Proof.
  destruct ys as [|y ys'] eqn:Hys.
  - rewrite nearest_empty, hit_guard_true. split.
    + intros (_ & H & _). now contradiction H.
    + intros (H & _). now contradiction H.
  - rewrite <- Hys.
    assert (Hne : ys <> []) by (rewrite Hys; discriminate).
    destruct (nearest_spec x ys Hne) as (k & v & Hk & Hn & Hv).
    rewrite Hn, hit_guard_true. split.
    + intros (_ & _ & Hthr). split; [exact Hne|]. now exists v.
    + intros (_ & w & Hw & Hthr).
      split; [apply float32_nonneg, L2sqr_nonneg|]. split; [lia|].
      rewrite (float32_comp _ _ (is_nearest_dist x ys v w Hv Hw)). exact Hthr.
Qed.

(** ** [ask], branch by branch *)

Lemma ask_by_path (E : Env) (out : http_outcome) (question : string) (st : state) :
  ask E out question st =
  match ask_path E st question with
  | HitPath row_id => ask_guarded (ask_hit row_id) st
  | MissPath => ask_guarded (ask_miss E out question (encode E question)) st
  | ProbeError e =>
      (inl (RuntimeError ("Error during 'ask' method: " ++ str e)), st)
  end.
Proof.
  unfold ask, ask_path, ask_guarded, try_except, bind, get, lift.
  destruct (index_search (index st) (encode E question)) as [e|DI]; [reflexivity|].
  destruct (hit_guard (euclidean_threshold st) DI); reflexivity.
Qed.

(** On the miss branch [ask] ends in the state the branch ends in, with its
    result, or with its exception wrapped. *)
Lemma ask_miss_run (E : Env) (out : http_outcome) (question : string) (st : state) :
  ask_path E st question = MissPath ->
  snd (ask E out question st)
  = snd (ask_miss E out question (encode E question) st) /\
  fst (ask E out question st)
  = match fst (ask_miss E out question (encode E question) st) with
    | inr text => inr text
    | inl e => inl (RuntimeError (ask_prefix ++ str e))
    end.
Proof.
  intro Hp. rewrite ask_by_path, Hp. unfold ask_guarded, try_except, raise.
  now destruct (ask_miss E out question (encode E question) st) as [[e|text] s].
Qed.

Lemma index_search_ok (E : Env) (st : state) (question : string) :
  ix_d (index st) = EMBED_DIM ->
  index_search (index st) (encode E question)
  = inr (nearest (encode E question) (ix_xb (index st))).
Proof.
  intro Hd. unfold index_search. rewrite Hd, (encode_dim E), Nat.eqb_refl.
  reflexivity.
Qed.

Lemma ask_path_hit (E : Env) (st : state) (question : string) (row_id : Z) :
  ask_path E st question = HitPath row_id ->
  exists k v,
    row_id = Z.of_nat k /\
    nth_error (ix_xb (index st)) k = Some v /\
    is_nearest (encode E question) (ix_xb (index st)) v /\
    (float32 (L2sqr (encode E question) v)
     <= float32 (euclidean_threshold st))%Q.
Proof.
  unfold ask_path, index_search.
  destruct (Nat.eqb _ _); [|discriminate].
  destruct (hit_guard _ _) eqn:Hg; [|discriminate].
  intro H. injection H as <-.
  apply hit_guard_nearest in Hg. destruct Hg as (Hne & w & Hw & Hthr).
  destruct (nearest_spec (encode E question) _ Hne) as (k & v & Hk & Hn & Hv).
  exists k, v. rewrite Hn. simpl. repeat split; try assumption; try apply Hv.
  rewrite (float32_comp _ _ (is_nearest_dist _ _ v w Hv Hw)). exact Hthr.
Qed.

(** ** Dictionaries of lists *)

Lemma assoc_set_same (k : string) (v : json) (kv : list (string * json)) :
  assoc k (assoc_set k v kv) = Some v.
Proof.
  induction kv as [|[k' v'] kv IH]; simpl.
  - now rewrite String.eqb_refl.
  - destruct (String.eqb k k') eqn:Hk; simpl; rewrite Hk; auto.
Qed.

Lemma assoc_set_other (k k' : string) (v : json) (kv : list (string * json)) :
  k' <> k -> assoc k' (assoc_set k v kv) = assoc k' kv.
Proof.
  intro Hne. induction kv as [|[k0 v0] kv IH]; simpl.
  - apply String.eqb_neq in Hne. now rewrite Hne.
  - destruct (String.eqb k k0) eqn:Hk; simpl.
    + apply String.eqb_eq in Hk. subst k0.
      apply String.eqb_neq in Hne. now rewrite Hne.
    + now rewrite IH.
Qed.

Lemma append_at_inr (c c' : json) (k : string) (item : json) :
  append_at c k item = inr c' ->
  exists kv l, c = JObj kv /\ assoc k kv = Some (JArr l) /\
               c' = JObj (assoc_set k (JArr (l ++ [item])) kv).
Proof.
  unfold append_at, getitem_key.
  destruct c as [| | | | |kv]; try discriminate.
  destruct (assoc k kv) as [v|] eqn:Ha; [|discriminate].
  destruct v; try discriminate.
  intro H. injection H as <-. now exists kv, items.
Qed.

Lemma append_at_other (c c' : json) (k k' : string) (item : json) :
  append_at c k item = inr c' -> k' <> k ->
  getitem_key c' k' = getitem_key c k'.
Proof.
  intros H Hne. apply append_at_inr in H. destruct H as (kv & l & -> & _ & ->).
  simpl. now rewrite assoc_set_other.
Qed.

Lemma append_at_same (c c' : json) (k : string) (item : json) :
  append_at c k item = inr c' ->
  exists l, getitem_key c k = inr (JArr l) /\
            getitem_key c' k = inr (JArr (l ++ [item])).
Proof.
  intro H. apply append_at_inr in H. destruct H as (kv & l & -> & Ha & ->).
  exists l. simpl. now rewrite Ha, assoc_set_same.
Qed.

(** ** Rules for Hoare triples *)

Lemma hoare_bind {A B} (P : state -> Prop) (m : M A) (k : A -> M B)
      (R : A -> state -> Prop) (Q : exn + B -> state -> Prop) :
  hoare P m (fun r st => match r with
                         | inr a => R a st
                         | inl e => Q (inl e) st
                         end) ->
  (forall a, hoare (R a) (k a) Q) ->
  hoare P (bind m k) Q.
Proof.
  intros Hm Hk st HP. unfold bind. specialize (Hm st HP).
  destruct (m st) as [[e|a] st1]; simpl in *; [exact Hm|].
  now apply Hk.
Qed.

Lemma hoare_try {A} (P : state -> Prop) (body : M A) (handler : exn -> M A)
      (R : exn -> state -> Prop) (Q : exn + A -> state -> Prop) :
  hoare P body (fun r st => match r with
                            | inr a => Q (inr a) st
                            | inl e => R e st
                            end) ->
  (forall e, hoare (R e) (handler e) Q) ->
  hoare P (try_except body handler) Q.
Proof.
  intros Hb Hh st HP. unfold try_except. specialize (Hb st HP).
  destruct (body st) as [[e|a] st1]; simpl in *; [now apply Hh | exact Hb].
Qed.

Lemma keeps_bind {A B} (P : state -> Prop) (m : M A) (k : A -> M B) :
  keeps P m -> (forall a, keeps P (k a)) -> keeps P (bind m k).
Proof.
  intros Hm Hk. apply hoare_bind with (R := fun _ st => P st).
  - intros st HP. specialize (Hm st HP). now destruct (fst (m st)).
  - exact Hk.
Qed.

Lemma keeps_try {A} (P : state -> Prop) (body : M A) (handler : exn -> M A) :
  keeps P body -> (forall e, keeps P (handler e)) ->
  keeps P (try_except body handler).
Proof.
  intros Hb Hh. apply hoare_try with (R := fun _ st => P st).
  - intros st HP. specialize (Hb st HP). now destruct (fst (body st)).
  - exact Hh.
Qed.

Lemma keeps_pure {A} (P : state -> Prop) (m : M A) :
  (forall st, snd (m st) = st) -> keeps P m.
Proof. intros H st HP. now rewrite H. Qed.

Lemma keeps_modify (P : state -> Prop) (f : state -> state) :
  (forall st, P st -> P (f st)) -> keeps P (modify f).
Proof. intros H st HP. now apply H. Qed.

(** ** The hit branch never indexes past the stored texts

    The index is created empty and grows by one vector only after a text was
    appended to [cache['response_text']]: in every reachable state the list
    of texts is at least as long as the index, whatever file was loaded. *)

Lemma hit_safe_ext (st st' : state) :
  index st' = index st -> cache st' = cache st -> hit_safe st -> hit_safe st'.
Proof.
  unfold hit_safe, index_dim_ok, texts_cover. intros -> ->. tauto.
Qed.

Lemma make_prediction_keeps (P : state -> Prop) E out data :
  (forall e st, P st -> P (add_event e st)) ->
  keeps P (make_prediction E out data).
Proof.
  intro Hev. unfold make_prediction, userdata_get.
  apply keeps_bind; [destruct (api_key E); now apply keeps_pure|]. intros value.
  destruct (is_empty value); [now apply keeps_pure|].
  apply keeps_bind; [apply keeps_modify; auto|]. intros _.
  destruct out as [msg|code [v|]]; try destruct (code =? 200);
    now apply keeps_pure.
Qed.

Lemma generate_answer_keeps (P : state -> Prop) E out question :
  (forall e st, P st -> P (add_event e st)) ->
  keeps P (generate_answer E out question).
Proof.
  intro Hev. unfold generate_answer. apply keeps_try.
  - apply keeps_bind; [now apply make_prediction_keeps|]. intros result.
    apply keeps_bind; [now apply keeps_pure|]. intros data.
    apply keeps_bind; [now apply keeps_pure|]. intros rt.
    now apply keeps_pure.
  - intros e. now apply keeps_pure.
Qed.

Lemma save_cache_keeps (P : state -> Prop) :
  (forall e st, P st -> P (add_event e st)) ->
  (forall f st, P st -> P (set_disk f st)) ->
  keeps P save_cache.
Proof.
  intros Hev Hd. unfold save_cache.
  apply keeps_bind; [now apply keeps_pure|]. intros st0.
  destruct (write_error st0); [now apply keeps_pure|].
  apply keeps_bind; [apply keeps_modify; auto|]. intros _.
  apply keeps_modify; auto.
Qed.

Lemma hit_safe_add_event e st : hit_safe st -> hit_safe (add_event e st).
Proof. now apply hit_safe_ext. Qed.

Lemma hit_safe_set_disk f st : hit_safe st -> hit_safe (set_disk f st).
Proof. now apply hit_safe_ext. Qed.

Lemma cache_append_texts (item : json) :
  hoare hit_safe (cache_append "response_text" item)
        (fun r st => match r with
                     | inr _ => index_dim_ok st /\ texts_cover 1 st
                     | inl _ => hit_safe st
                     end).
Proof.
  intros st Hs. unfold cache_append, bind, get, lift, modify.
  destruct (append_at (cache st) "response_text" item) as [e|c'] eqn:Ha; simpl.
  - exact Hs.
  - destruct Hs as [Hd Hc]. split; [exact Hd|].
    apply append_at_same in Ha. destruct Ha as (l & Hl & Hl').
    exists (l ++ [item])%list. split; [exact Hl'|].
    rewrite length_app. simpl.
    destruct Hc as [H0 | (rs & Hrs & Hle)].
    + rewrite H0. lia.
    + rewrite Hl in Hrs. injection Hrs as Hrs. subst rs. lia.
Qed.

Lemma cache_append_keeps_hit_safe (k : string) (item : json) :
  keeps hit_safe (cache_append k item).
Proof.
  intros st Hs. unfold cache_append, bind, get, lift, modify.
  destruct (append_at (cache st) k item) as [e|c'] eqn:Ha; simpl; [exact Hs|].
  destruct Hs as [Hd Hc]. split; [exact Hd|].
  destruct Hc as [H0 | (rs & Hrs & Hle)]; [now left | right].
  destruct (String.eqb k "response_text") eqn:Hk.
  - apply String.eqb_eq in Hk. subst k.
    apply append_at_same in Ha. destruct Ha as (l & Hl & Hl').
    exists (l ++ [item])%list. split; [exact Hl'|].
    rewrite Hl in Hrs. injection Hrs as Hrs. subst rs.
    rewrite length_app. simpl in *. lia.
  - apply String.eqb_neq in Hk. exists rs. split; [|exact Hle].
    simpl. rewrite (append_at_other _ _ k "response_text" item Ha); auto.
Qed.

Lemma ask_miss_keeps_hit_safe E out question x :
  keeps hit_safe (ask_miss E out question x).
Proof.
  unfold ask_miss.
  apply keeps_bind;
    [apply generate_answer_keeps, hit_safe_add_event|]. intros [answer rt].
  do 3 (apply keeps_bind; [apply cache_append_keeps_hit_safe|]; intros _).
  eapply hoare_bind; [apply cache_append_texts|]. intros [].
  apply hoare_bind with (R := fun _ st => hit_safe st).
  - intros st [Hd (rs & Hrs & Hle)].
    unfold bind, get, lift, modify, index_add.
    destruct (Nat.eqb (List.length x) (ix_d (index st))); simpl.
    + split; [exact Hd|]. right. exists rs. split; [exact Hrs|].
      unfold ntotal in *. simpl. rewrite length_app. simpl. lia.
    + split; [exact Hd|]. right. exists rs. split; [exact Hrs|]. lia.
  - intros _. apply keeps_bind.
    + apply save_cache_keeps; [apply hit_safe_add_event | apply hit_safe_set_disk].
    + intros _. now apply keeps_pure.
Qed.

Lemma ask_keeps_hit_safe E out question : keeps hit_safe (ask E out question).
Proof.
  unfold ask. apply keeps_try; [|intros e; now apply keeps_pure].
  apply keeps_bind; [now apply keeps_pure|]. intros st0.
  apply keeps_bind; [now apply keeps_pure|]. intros DI.
  destruct (hit_guard _ _).
  - unfold ask_hit.
    apply keeps_bind; [now apply keeps_pure|]. intros st1.
    apply keeps_bind; now intros; apply keeps_pure.
  - apply ask_miss_keeps_hit_safe.
Qed.

(** [clear_cache], run: lists and index are emptied, then the file is
    written, or [open] raises and leaves it. *)
Lemma clear_cache_run (st : state) :
  let cleared := set_index (mkIndex EMBED_DIM []) (set_cache empty_cache st) in
  clear_cache st
  = match write_error st with
    | Some e => (inl e, cleared)
    | None => (inr tt, set_disk (Some (JsonDoc empty_cache))
                                (add_event EvOpenWrite cleared))
    end.
Proof.
  unfold clear_cache, save_cache, bind, modify, get. simpl.
  destruct (write_error st); reflexivity.
Qed.

Lemma clear_cache_hit_safe (st : state) : hit_safe (snd (clear_cache st)).
Proof.
  rewrite clear_cache_run.
  destruct (write_error st); split; try reflexivity; now left.
Qed.

Lemma init_hit_safe json_file0 clear_on_init disk0 write_error0 log0 :
  hit_safe (snd (init json_file0 clear_on_init disk0 write_error0 log0)).
Proof.
  unfold init. destruct clear_on_init; [apply clear_cache_hit_safe|].
  destruct disk0 as [[t|v]|]; split; try reflexivity; now left.
Qed.

(** Turns the final state of a run [H : m = (r, st')] into [snd m]. *)
Ltac final_state H :=
  match type of H with
  | ?m = (_, ?st') => replace st' with (snd m) by (now rewrite H)
  end.

Lemma reachable_hit_safe (E : Env) (st : state) : reachable E st -> hit_safe st.
Proof.
  induction 1 as [jf c d0 w0 l0 st Hi | out q st r st' _ IH Ha | st r st' _ IH Hc].
  - final_state Hi. apply init_hit_safe.
  - final_state Ha. now apply ask_keeps_hit_safe.
  - final_state Hc. apply clear_cache_hit_safe.
Qed.

Lemma reachable_run_init (E : Env) (disk0 : option file) :
  fst (init "cache.json" false disk0 None []) = inr tt ->
  reachable E (run_init disk0).
Proof.
  intro H. apply (reach_init E "cache.json" false disk0 None []).
  unfold run_init. rewrite <- H. apply surjective_pairing.
Qed.

Lemma reachable_run_ask (E : Env) out question st :
  reachable E st -> reachable E (run_ask E out question st).
Proof.
  intro H. apply (reach_ask E out question st (fst (ask E out question st))); auto.
  apply surjective_pairing.
Qed.

(** The hit branch, run: it reads one list element and touches nothing. *)
Lemma ask_hit_run (E : Env) out question st (k : nat) texts text :
  ask_path E st question = HitPath (Z.of_nat k) ->
  getitem_key (cache st) "response_text" = inr (JArr texts) ->
  nth_error texts k = Some text ->
  ask E out question st = (inr text, st).
Proof.
  intros Hp Hc Hn. rewrite ask_by_path, Hp.
  unfold ask_guarded, try_except, ask_hit, bind, get, lift.
  rewrite Hc. unfold getitem_int, wrap_index.
  assert (Hk : (k < List.length texts)%nat) by (apply nth_error_Some; congruence).
  replace (Z.of_nat k <? 0) with false by (symmetry; apply Z.ltb_ge; lia).
  replace (0 <=? Z.of_nat k) with true by (symmetry; apply Z.leb_le; lia).
  replace (Z.of_nat k <? Z.of_nat (List.length texts)) with true
    by (symmetry; apply Z.ltb_lt; lia).
  simpl. rewrite Nat2Z.id, Hn. reflexivity.
Qed.

(** Whatever the state, the hit branch leaves it as it found it. *)
Lemma ask_hit_frame (E : Env) out question st row_id :
  ask_path E st question = HitPath row_id ->
  snd (ask E out question st) = st.
Proof.
  intro Hp. rewrite ask_by_path, Hp.
  unfold ask_guarded, try_except, ask_hit, bind, get, lift.
  destruct (getitem_key (cache st) "response_text") as [e|texts]; [reflexivity|].
  destruct (getitem_int texts row_id); reflexivity.
Qed.

(** ** The hit/miss decision *)



(** C3. On a hit, [ask] returns the element of [cache['response_text']] at the
    position the search returned and ends in the state it started from:
    index, cache lists, cache file and effect log are all as before, so no
    request was sent to the answer provider and the file was neither read
    nor written. *)
Theorem C3_hit_is_read_only
        (E : Env) (out : http_outcome) (st : state) (question : string)
        (row_id : Z) :
  reachable E st ->
  ask_path E st question = HitPath row_id ->
  exists texts text,
    getitem_key (cache st) "response_text" = inr (JArr texts) /\
    nth_error texts (Z.to_nat row_id) = Some text /\
    ask E out question st = (inr text, st).
Proof.
  intros Hr Hp. apply reachable_hit_safe in Hr. destruct Hr as [_ Hc].
  destruct (ask_path_hit E st question row_id Hp) as (k & v & -> & Hk & _).
  assert (Hlt : (k < ntotal (index st))%nat)
    by (apply nth_error_Some; unfold ntotal; congruence).
  destruct Hc as [H0 | (rs & Hrs & Hle)]; [lia|].
  destruct (nth_error rs k) as [text|] eqn:Hn.
  - exists rs, text. rewrite Nat2Z.id. repeat split; auto.
    eapply ask_hit_run; eauto.
  - apply nth_error_None in Hn. lia.
Qed.

(** C10. With an empty index the search still runs and does not fail; it
    reports the label -1, which the guard sends to the miss branch.  The hit
    branch is only ever entered with the position of a stored vector, never
    with a negative one. *)
Theorem C10_empty_index_misses (E : Env) (st : state) (question : string) :
  index_dim_ok st ->
  (ntotal (index st) = 0%nat ->
   index_search (index st) (encode E question) = inr (FLT_MAX, -1) /\
   ask_path E st question = MissPath /\
   forall out, ask E out question st
               = ask_guarded (ask_miss E out question (encode E question)) st)
  /\ (0 <= FLT_MAX)%Q
  /\ (forall thr D, hit_guard thr (D, -1) = false)
  /\ (forall row_id, ask_path E st question = HitPath row_id ->
                     0 <= row_id < Z.of_nat (ntotal (index st))).
Proof.
  intro Hd. split; [|split; [apply FLT_MAX_nonneg|split; [apply hit_guard_sentinel|]]].
  - intro H0.
    assert (Hxb : ix_xb (index st) = [])
      by (unfold ntotal in H0; now apply length_zero_iff_nil).
    assert (Hs : index_search (index st) (encode E question) = inr (FLT_MAX, -1))
      by (rewrite (index_search_ok E st question Hd), Hxb; reflexivity).
    assert (Hp : ask_path E st question = MissPath)
      by (unfold ask_path; rewrite Hs; reflexivity).
    repeat split; auto. intro out. now rewrite ask_by_path, Hp.
  - intros row_id Hp.
    destruct (ask_path_hit E st question row_id Hp) as (k & v & -> & Hk & _).
    assert ((k < ntotal (index st))%nat)
      by (apply nth_error_Some; unfold ntotal; congruence).
    lia.
Qed.

(** ** Loading the cache file *)

(** C9. When the cache file does not exist, [load_cache] returns normally and
    leaves the four lists empty; so does the constructor that calls it. *)
Theorem C9_load_missing_file (st : state) :
  load_cache (set_disk None st)
  = (inr tt, set_cache empty_cache (add_event EvOpenRead (set_disk None st)))
  /\ empty_cache = JObj [("questions", JArr []); ("embeddings", JArr []);
                         ("answers", JArr []); ("response_text", JArr [])]
  /\ (forall json_file0 write_error0 log0,
         fst (init json_file0 false None write_error0 log0) = inr tt /\
         cache (snd (init json_file0 false None write_error0 log0)) = empty_cache /\
         disk (snd (init json_file0 false None write_error0 log0)) = None).
Proof. repeat split; reflexivity. Qed.

(** C7, as the code has it. A cache file that is not JSON makes [load_cache]
    raise the parser's own [JSONDecodeError]; a file that parses is taken as
    the cache whatever it holds, the lengths of its lists are not compared. *)
Theorem C7_load_existing_file (st : state) :
  (forall text,
      load_cache (set_disk (Some (NotJson text)) st)
      = (inl JSONDecodeError,
         add_event EvOpenRead (set_disk (Some (NotJson text)) st)))
  /\ (forall v,
         load_cache (set_disk (Some (JsonDoc v)) st)
         = (inr tt,
            set_cache v (add_event EvOpenRead (set_disk (Some (JsonDoc v)) st)))).
Proof. split; reflexivity. Qed.

(** C7 fails: a file whose lists have lengths 2, 0, 1 and 0 is loaded without
    any error, and an unparseable file raises [JSONDecodeError], which the
    constructor lets through as it is. *)
Lemma C7_counterexample :
  fst (init "cache.json" false (Some ragged_file) None []) = inr tt
  /\ entry_count (cache (run_init (Some ragged_file))) "questions" = Some 2%nat
  /\ entry_count (cache (run_init (Some ragged_file))) "embeddings" = Some 0%nat
  /\ entry_count (cache (run_init (Some ragged_file))) "answers" = Some 1%nat
  /\ entry_count (cache (run_init (Some ragged_file))) "response_text" = Some 0%nat
  /\ fst (init "cache.json" false (Some (NotJson "{oops")) None [])
     = inl JSONDecodeError.
Proof. repeat split; reflexivity. Qed.

(** ** A failing answer provider *)

Lemma make_prediction_sent (E : Env) out data st :
  key_missing (api_key E) = false ->
  make_prediction E out data st
  = (inr (returned_json out), add_event (EvPost data) st).
Proof.
  intro Hkey. unfold make_prediction, userdata_get.
  destruct (api_key E) as [[|c value]|]; try discriminate.
  unfold bind, ret, modify. simpl.
  destruct out as [msg|code [v|]]; simpl; try reflexivity;
    destruct (code =? 200); reflexivity.
Qed.

Lemma generate_answer_sent (E : Env) out question st :
  key_missing (api_key E) = false ->
  generate_answer E out question st
  = (match extract_text (returned_json out) with
     | inr text => inr (returned_json out, text)
     | inl e => inl (RuntimeError (generate_prefix ++ str e))
     end, add_event (EvPost [question]) st).
Proof.
  intro Hkey. unfold generate_answer, try_except, bind.
  rewrite (make_prediction_sent E out [question] st Hkey).
  unfold extract_text, lift, ret, raise.
  destruct (getitem_key (returned_json out) "data") as [e|data]; [reflexivity|].
  destruct (getitem_key data "response_text"); reflexivity.
Qed.

Lemma generate_answer_no_key (E : Env) out question st :
  key_missing (api_key E) = true ->
  exists reason,
    generate_answer E out question st
    = (inl (RuntimeError (generate_prefix ++ reason)), st) /\
    (api_key E = Some EmptyString -> reason = missing_key_text).
Proof.
  intro Hkey. unfold generate_answer, make_prediction, userdata_get.
  destruct (api_key E) as [[|c value]|]; try discriminate.
  - exists missing_key_text. split; reflexivity.
  - eexists. split; [reflexivity | discriminate].
Qed.

(** A failure of the provider with the credential there: what
    [make_prediction] returns has no [data.response_text]. *)
Lemma provider_failure_sent (E : Env) out :
  key_missing (api_key E) = false ->
  provider_failure E out ->
  exists e, extract_text (returned_json out) = inl e.
Proof.
  intros Hkey Hf.
  destruct Hf as [out Hk | msg | code body Hne | code | code v e He].
  - congruence.
  - eexists. reflexivity.
  - apply Z.eqb_neq in Hne. simpl. rewrite Hne.
    destruct body; eexists; reflexivity.
  - eexists. reflexivity.
  - simpl. destruct (code =? 200); [now exists e | eexists; reflexivity].
Qed.

Lemma generate_answer_failure (E : Env) out question st :
  provider_failure E out ->
  exists reason st',
    generate_answer E out question st
    = (inl (RuntimeError (generate_prefix ++ reason)), st') /\
    (st' = st \/ st' = add_event (EvPost [question]) st).
Proof.
  intro Hf. destruct (key_missing (api_key E)) eqn:Hkey.
  - destruct (generate_answer_no_key E out question st Hkey) as (reason & Hg & _).
    exists reason, st. split; [exact Hg | now left].
  - destruct (provider_failure_sent E out Hkey Hf) as [e He].
    rewrite (generate_answer_sent E out question st Hkey), He.
    eexists _, _. split; [reflexivity | now right].
Qed.

Lemma generate_answer_success (E : Env) question st v text :
  key_missing (api_key E) = false ->
  extract_text v = inr text ->
  generate_answer E (Response 200 (Some v)) question st
  = (inr (v, text), add_event (EvPost [question]) st).
Proof.
  intros Hkey He. rewrite (generate_answer_sent E _ question st Hkey).
  simpl. now rewrite He.
Qed.

Lemma ask_miss_failure (E : Env) out question st :
  ask_path E st question = MissPath ->
  provider_failure E out ->
  exists reason st',
    ask E out question st
    = (inl (RuntimeError (ask_prefix ++ generate_prefix ++ reason)), st') /\
    (st' = st \/ st' = add_event (EvPost [question]) st).
Proof.
  intros Hp Hf. rewrite ask_by_path, Hp.
  destruct (generate_answer_failure E out question st Hf)
    as (reason & st' & Hg & Hst).
  exists reason, st'. split; [|exact Hst].
  unfold ask_guarded, try_except, ask_miss, bind. rewrite Hg. reflexivity.
Qed.

(** C5. When the call to the answer provider fails on the miss branch, [ask]
    raises and the cache is as before: the index, the four lists and the
    cache file are unchanged; at most the request itself was logged. *)
Theorem C5_generation_failure_commits_nothing
        (E : Env) (out : http_outcome) (st : state) (question : string) :
  ask_path E st question = MissPath ->
  provider_failure E out ->
  exists msg st',
    ask E out question st = (inl (RuntimeError msg), st') /\
    index st' = index st /\ cache st' = cache st /\ disk st' = disk st /\
    (log st' = log st \/ log st' = EvPost [question] :: log st).
Proof.
  intros Hp Hf.
  destruct (ask_miss_failure E out question st Hp Hf) as (reason & st' & Ha & Hst).
  exists (ask_prefix ++ generate_prefix ++ reason), st'.
  split; [exact Ha|].
  destruct Hst as [-> | ->]; repeat split; auto.
Qed.



(** ** Index and lists in lockstep *)

Lemma bind_run {A B} (m : M A) (k : A -> M B) st a st' :
  m st = (inr a, st') -> bind m k st = k a st'.
Proof. intro H. unfold bind. now rewrite H. Qed.

Lemma cache_append_run (k : string) (item : json) (st : state) (c' : json) :
  append_at (cache st) k item = inr c' ->
  cache_append k item st = (inr tt, set_cache c' st).
Proof.
  intro H. unfold cache_append, bind, get, lift, modify. now rewrite H.
Qed.

Lemma aligned_counts (E : Env) (entries : list entry) (st : state) :
  aligned E entries st ->
  ntotal (index st) = List.length entries /\
  forall k, In k ["questions"; "embeddings"; "answers"; "response_text"] ->
            entry_count (cache st) k = Some (List.length entries).
Proof.
  intros [Hi Hc]. rewrite Hi, Hc. split.
  - unfold ntotal. simpl. apply length_map.
  - intros k Hk. simpl in Hk.
    destruct Hk as [<-|[<-|[<-|[<-|[]]]]]; unfold entry_count; simpl;
      now rewrite length_map.
Qed.

Lemma aligned_dim_ok (E : Env) entries st : aligned E entries st -> index_dim_ok st.
Proof. intros [Hi _]. unfold index_dim_ok. now rewrite Hi. Qed.

(** What a miss the provider answers stores, on a cache made of four lists:
    each list and the index grow by one element; then the cache is saved and
    the text returned, or the file cannot be opened, is left as it is, and
    the exception of [open] is raised. *)
Lemma ask_miss_stores (E : Env) st question v text qs es ans rs :
  cache st = mk_cache qs es ans rs ->
  index_dim_ok st ->
  key_missing (api_key E) = false ->
  extract_text v = inr text ->
  let run := ask_miss E (Response 200 (Some v)) question (encode E question) st in
  cache (snd run) = mk_cache (qs ++ [JStr question])
                             (es ++ [tolist (encode E question)])
                             (ans ++ [v]) (rs ++ [text]) /\
  index (snd run) = mkIndex EMBED_DIM (ix_xb (index st) ++ [encode E question]) /\
  euclidean_threshold (snd run) = euclidean_threshold st /\
  write_error (snd run) = write_error st /\
  match write_error st with
  | None =>
      fst run = inr text /\
      disk (snd run) = Some (JsonDoc (cache (snd run))) /\
      log (snd run) = EvOpenWrite :: EvPost [question] :: log st
  | Some e =>
      fst run = inl e /\
      disk (snd run) = disk st /\
      log (snd run) = EvPost [question] :: log st
  end.
Proof.
  intros Hc Hd Hkey He. unfold ask_miss.
  rewrite (bind_run _ _ _ _ _ (generate_answer_success E question st v text Hkey He)).
  destruct st as [[d xb] thr jf c dk w l]. unfold index_dim_ok in Hd.
  simpl in Hc, Hd. subst c d.
  unfold add_event. simpl.
  erewrite bind_run; [|apply cache_append_run; reflexivity].
  erewrite bind_run; [|apply cache_append_run; reflexivity].
  erewrite bind_run; [|apply cache_append_run; reflexivity].
  erewrite bind_run; [|apply cache_append_run; reflexivity].
  unfold set_cache, bind, get, lift, modify, index_add, save_cache. simpl.
  rewrite (encode_dim E question), Nat.eqb_refl. simpl.
  destruct w as [e|]; simpl; repeat split; reflexivity.
Qed.

(** The commit of a successful miss, when the file can be written. *)
Lemma ask_miss_commit (E : Env) st question v text qs es ans rs :
  cache st = mk_cache qs es ans rs ->
  index_dim_ok st ->
  write_error st = None ->
  key_missing (api_key E) = false ->
  extract_text v = inr text ->
  exists st',
    ask_miss E (Response 200 (Some v)) question (encode E question) st
    = (inr text, st') /\
    cache st' = mk_cache (qs ++ [JStr question])
                         (es ++ [tolist (encode E question)])
                         (ans ++ [v]) (rs ++ [text]) /\
    index st' = mkIndex EMBED_DIM (ix_xb (index st) ++ [encode E question]) /\
    euclidean_threshold st' = euclidean_threshold st /\
    disk st' = Some (JsonDoc (cache st')) /\
    log st' = EvOpenWrite :: EvPost [question] :: log st.
Proof.
  intros Hc Hd Hw Hkey He.
  destruct (ask_miss_stores E st question v text qs es ans rs Hc Hd Hkey He)
    as (Hc' & Hi' & Hthr & _ & Hrun).
  rewrite Hw in Hrun. destruct Hrun as (Hr & Hdisk & Hlog).
  exists (snd (ask_miss E (Response 200 (Some v)) question (encode E question) st)).
  split; [rewrite <- Hr; apply surjective_pairing|].
  repeat split; assumption.
Qed.

(** The same commit, on an aligned state. *)
Lemma ask_miss_aligned (E : Env) entries st question v text :
  aligned E entries st ->
  write_error st = None ->
  key_missing (api_key E) = false ->
  extract_text v = inr text ->
  exists st',
    ask_miss E (Response 200 (Some v)) question (encode E question) st
    = (inr text, st') /\
    aligned E (entries ++ [mkEntry question v text]) st' /\
    euclidean_threshold st' = euclidean_threshold st /\
    disk st' = Some (JsonDoc (cache st')) /\
    log st' = EvOpenWrite :: EvPost [question] :: log st.
Proof.
  intros Hal Hw Hkey He.
  pose proof (aligned_dim_ok E entries st Hal) as Hd.
  destruct Hal as [Hi Hc].
  destruct (ask_miss_commit E st question v text _ _ _ _ Hc Hd Hw Hkey He)
    as (st' & Hm & Hc' & Hi' & Hthr & Hdisk & Hlog).
  exists st'. repeat split; try assumption.
  - rewrite Hi', Hi. unfold index_of. simpl. now rewrite map_app.
  - rewrite Hc'. unfold cache_of. now rewrite !map_app.
Qed.

(** Every outcome of the provider is a failure or a success. *)
Lemma provider_outcome_cases (E : Env) (out : http_outcome) :
  provider_failure E out \/
  (key_missing (api_key E) = false /\
   exists v text, out = Response 200 (Some v) /\ extract_text v = inr text).
Proof.
  destruct (key_missing (api_key E)) eqn:Hkey;
    [left; now apply fail_credential|].
  destruct out as [msg|code [v|]].
  - left. apply fail_request.
  - destruct (Z.eq_dec code 200) as [->|Hne].
    + destruct (extract_text v) as [e|text] eqn:He.
      * left. eapply fail_payload; eauto.
      * right. split; [reflexivity|]. now exists v, text.
    + left. now apply fail_status.
  - left. apply fail_not_json.
Qed.

(** An [ask] on an aligned state leaves it aligned: on the same entries, or
    on one more entry, the one it returns the text of. *)
Lemma ask_aligned (E : Env) out question entries st :
  aligned E entries st ->
  aligned E entries (snd (ask E out question st)) \/
  exists v text,
    aligned E (entries ++ [mkEntry question v text]) (snd (ask E out question st)).
Proof.
  intro Ha. destruct (ask_path E st question) as [row| |e] eqn:Hp.
  - left. now rewrite (ask_hit_frame E out question st row Hp).
  - destruct (provider_outcome_cases E out) as [Hf | (Hkey & v & text & -> & He)].
    + left. destruct (ask_miss_failure E out question st Hp Hf)
        as (reason & st' & Hask & Hst).
      rewrite Hask. simpl. destruct Ha as [Hi Hc].
      destruct Hst as [-> | ->]; split; assumption.
    + right. exists v, text.
      pose proof (aligned_dim_ok E entries st Ha) as Hd.
      destruct Ha as [Hi Hc].
      destruct (ask_miss_stores E st question v text _ _ _ _ Hc Hd Hkey He)
        as (Hc' & Hi' & _).
      rewrite (proj1 (ask_miss_run E _ question st Hp)). split.
      * rewrite Hi', Hi. unfold index_of. simpl. now rewrite map_app.
      * rewrite Hc'. unfold cache_of. now rewrite !map_app.
  - left. rewrite ask_by_path, Hp. exact Ha.
Qed.

Lemma clear_cache_aligned (E : Env) (st : state) :
  aligned E [] (snd (clear_cache st)).
Proof.
  rewrite clear_cache_run. destruct (write_error st); split; reflexivity.
Qed.

Lemma init_fresh_aligned (E : Env) json_file0 clear_on_init write_error0 log0 :
  aligned E [] (snd (init json_file0 clear_on_init None write_error0 log0)).
Proof.
  destruct clear_on_init; [apply clear_cache_aligned | split; reflexivity].
Qed.

Lemma init_clear_aligned (E : Env) json_file0 disk0 write_error0 log0 :
  aligned E [] (snd (init json_file0 true disk0 write_error0 log0)).
Proof. apply clear_cache_aligned. Qed.

(** ** Which text a hit returns *)

(** A stored vector whose distance is within the threshold once both are
    float32 numbers is enough for a hit. *)
Lemma near_enough_hits (E : Env) (st : state) (question : string) (v : vec) :
  index_dim_ok st ->
  In v (ix_xb (index st)) ->
  (float32 (L2sqr (encode E question) v) <= float32 (euclidean_threshold st))%Q ->
  exists k w,
    ask_path E st question = HitPath (Z.of_nat k) /\
    nth_error (ix_xb (index st)) k = Some w /\
    is_nearest (encode E question) (ix_xb (index st)) w.
Proof.
  intros Hd Hin Hthr.
  assert (Hne : ix_xb (index st) <> [])
    by (intro Hx; rewrite Hx in Hin; exact Hin).
  destruct (nearest_spec (encode E question) _ Hne) as (k & w & Hk & Hn & Hw).
  exists k, w. split; [|now split].
  unfold ask_path. rewrite (index_search_ok E st question Hd), Hn.
  replace (hit_guard (euclidean_threshold st)
                     (L2sqr (encode E question) w, Z.of_nat k))
    with true; [reflexivity|].
  symmetry. apply hit_guard_true.
  split; [apply float32_nonneg, L2sqr_nonneg|]. split; [lia|].
  eapply Qle_trans; [|exact Hthr]. apply float32_le. now apply Hw.
Qed.

(** A stored vector within the threshold is enough for a hit. *)
Lemma within_threshold_hits (E : Env) (st : state) (question : string) (v : vec) :
  index_dim_ok st ->
  In v (ix_xb (index st)) ->
  (L2sqr (encode E question) v <= euclidean_threshold st)%Q ->
  exists k w,
    ask_path E st question = HitPath (Z.of_nat k) /\
    nth_error (ix_xb (index st)) k = Some w /\
    is_nearest (encode E question) (ix_xb (index st)) w.
Proof.
  intros Hd Hin Hthr. apply (near_enough_hits E st question v Hd Hin).
  now apply float32_le.
Qed.



(** ** Restarting on an existing cache file *)

(** After a restart on a file that holds entries, a new question that is
    asked twice is answered the second time with the text of the first entry
    of the file, whatever the question. *)
Lemma restart_hit_returns_loaded_text
      (E : Env) (out2 : http_outcome) json_file0 log0 qs es ans t0 rs
      (question : string) (v text : json) :
  key_missing (api_key E) = false ->
  extract_text v = inr text ->
  let loaded := mk_cache qs es ans (t0 :: rs) in
  let st0 := snd (init json_file0 false (Some (JsonDoc loaded)) None log0) in
  let first := ask E (Response 200 (Some v)) question st0 in
  fst first = inr text /\
  fst (ask E out2 question (snd first)) = inr t0.
Proof.
  intros Hkey He loaded st0 first.
  assert (Hd0 : index_dim_ok st0) by reflexivity.
  assert (Hp0 : ask_path E st0 question = MissPath).
  { unfold ask_path. rewrite (index_search_ok E st0 question Hd0). reflexivity. }
  destruct (ask_miss_commit E st0 question v text qs es ans (t0 :: rs)
                            eq_refl Hd0 eq_refl Hkey He)
    as (st1 & Hm & Hc1 & Hi1 & Hthr1 & _).
  assert (Hfirst : first = (inr text, st1)).
  { unfold first. rewrite ask_by_path, Hp0.
    unfold ask_guarded, try_except. now rewrite Hm. }
  rewrite Hfirst. simpl. split; [reflexivity|].
  assert (Hd1 : index_dim_ok st1) by (unfold index_dim_ok; now rewrite Hi1).
  destruct (within_threshold_hits E st1 question (encode E question) Hd1)
    as (k & w & Hp1 & Hk & _).
  - rewrite Hi1. simpl. now left.
  - rewrite Hthr1. simpl. rewrite L2sqr_self. vm_compute. discriminate.
  - rewrite Hi1 in Hk. simpl in Hk.
    assert (k = 0%nat) as ->.
    { destruct k as [|k]; [reflexivity|]. destruct k; discriminate. }
    erewrite ask_hit_run; [reflexivity | exact Hp1 | rewrite Hc1; reflexivity |].
    reflexivity.
Qed.

(** C1, at a restart. Constructing the object on a cache file that holds one
    entry succeeds and leaves the index empty while each of the four lists
    has one element; whatever the file holds, the index is empty after the
    construction and the cache is the value read from the file. *)
Theorem C1_restart_breaks_lockstep :
  init "cache.json" false (Some stale_file) None [] = (inr tt, restarted)
  /\ ntotal (index restarted) = 0%nat
  /\ entry_count (cache restarted) "questions" = Some 1%nat
  /\ entry_count (cache restarted) "embeddings" = Some 1%nat
  /\ entry_count (cache restarted) "answers" = Some 1%nat
  /\ entry_count (cache restarted) "response_text" = Some 1%nat
  /\ (forall json_file0 v write_error0 log0,
         ntotal (index (snd (init json_file0 false (Some (JsonDoc v))
                                  write_error0 log0))) = 0%nat /\
         cache (snd (init json_file0 false (Some (JsonDoc v)) write_error0 log0))
         = v).
Proof. repeat split; reflexivity. Qed.

(** C4, after a restart. On the restarted cache the first [ask] of a new
    question misses and returns the provider's text; the second [ask] of the
    same question hits position 0 and returns the text of the entry loaded
    from the file instead. *)
Theorem C4_restart_second_ask_differs :
  let first := ask demo_env (answers_with "Tim Cook") q_apple restarted in
  let second := ask demo_env (answers_with "Tim Cook") q_apple (snd first) in
  ask_path demo_env restarted q_apple = MissPath
  /\ fst first = inr (JStr "Tim Cook")
  /\ ask_path demo_env (snd first) q_apple = HitPath 0
  /\ fst second = inr (JStr "Paris")
  /\ fst second <> fst first
  /\ provider_calls (snd second) = 1%nat
  /\ entry_count (cache (snd second)) "response_text" = Some 2%nat
  /\ ntotal (index (snd second)) = 1%nat.
Proof.
  repeat split; try (vm_compute; reflexivity).
  vm_compute. discriminate.
Qed.

(** ** Lockstep without a restart *)

Lemma fresh_reachable_aligned (E : Env) (st : state) :
  fresh_reachable E st -> exists entries, aligned E entries st.
Proof.
  induction 1 as [jf c w0 l0 st Hi | jf d0 w0 l0 st Hi | st r st' _ Hc
                 | out q st r st' _ IH Ha].
  - exists []. final_state Hi. apply init_fresh_aligned.
  - exists []. final_state Hi. apply init_clear_aligned.
  - exists []. final_state Hc. apply clear_cache_aligned.
  - destruct IH as [entries Hal]. final_state Ha.
    destruct (ask_aligned E out q entries st Hal) as [H | (v & text & H)];
      eauto.
Qed.

(** Without a restart on an existing file, each of the four lists is as long
    as the index. *)
Lemma lockstep_without_restart (E : Env) (st : state) (k : string) :
  fresh_reachable E st ->
  In k ["questions"; "embeddings"; "answers"; "response_text"] ->
  entry_count (cache st) k = Some (ntotal (index st)).
Proof.
  intros Hf Hk. destruct (fresh_reachable_aligned E st Hf) as [entries Hal].
  destruct (aligned_counts E entries st Hal) as [Hn Hc].
  rewrite Hn. now apply Hc.
Qed.

(** On a cache in lockstep whose file can be written, a question that misses
    and is answered by the provider is stored once, with one request, and
    asking it again returns the same text from the cache. *)
Lemma miss_then_hit_aligned
      (E : Env) (out2 : http_outcome) (entries : list entry) (st : state)
      (question : string) (v text : json) :
  aligned E entries st ->
  write_error st = None ->
  (0 <= euclidean_threshold st)%Q ->
  key_missing (api_key E) = false ->
  extract_text v = inr text ->
  ask_path E st question = MissPath ->
  exists st1,
    ask E (Response 200 (Some v)) question st = (inr text, st1) /\
    aligned E (entries ++ [mkEntry question v text]) st1 /\
    provider_calls st1 = S (provider_calls st) /\
    ask E out2 question st1 = (inr text, st1).
Proof.
  intros Hal Hwr Hthr Hkey He Hp.
  destruct (ask_miss_aligned E entries st question v text Hal Hwr Hkey He)
    as (st1 & Hm & Hal1 & Hthr1 & _ & Hlog).
  exists st1. split; [|split; [exact Hal1|split]].
  - rewrite ask_by_path, Hp. unfold ask_guarded, try_except. now rewrite Hm.
  - unfold provider_calls. rewrite Hlog. reflexivity.
  - set (new := mkEntry question v text) in *.
    assert (Hself : (L2sqr (encode E question) (embedding_of E new) <= 0)%Q)
      by (unfold embedding_of; simpl; rewrite L2sqr_self; apply Qle_refl).
    assert (Hxb1 : ix_xb (index st1) = map (embedding_of E) (entries ++ [new]))
      by (destruct Hal1 as [Hi1 _]; rewrite Hi1; reflexivity).
    destruct (within_threshold_hits E st1 question (embedding_of E new))
      as (k & w & Hp1 & Hk & Hw).
    { eapply aligned_dim_ok; eauto. }
    { rewrite Hxb1. apply in_map, in_or_app. right. now left. }
    { rewrite Hthr1. eapply Qle_trans; eauto. }
    rewrite Hxb1 in Hk, Hw. rewrite nth_error_map in Hk.
    destruct (nth_error (entries ++ [new]) k) as [e|] eqn:Hek; [|discriminate].
    simpl in Hk. injection Hk as <-.
    assert (He0 : (L2sqr (encode E question) (embedding_of E e) <= 0)%Q).
    { eapply Qle_trans; [|exact Hself].
      apply Hw, in_map, in_or_app. right. now left. }
    assert (Hnew : e = new).
    { destruct (Nat.lt_ge_cases k (List.length entries)) as [Hlt | Hge].
      - exfalso. rewrite nth_error_app1 in Hek by exact Hlt.
        assert (Hin : In (embedding_of E e) (ix_xb (index st))).
        { destruct Hal as [Hi _]. rewrite Hi. simpl.
          apply in_map. eapply nth_error_In; eauto. }
        destruct (within_threshold_hits E st question (embedding_of E e))
          as (k' & w' & Hp' & _);
          [eapply aligned_dim_ok; eauto | exact Hin | | congruence].
        eapply Qle_trans; eauto.
      - rewrite nth_error_app2 in Hek by exact Hge.
        destruct (k - List.length entries)%nat as [|n]; simpl in Hek.
        + now injection Hek as <-.
        + destruct n; discriminate. }
    subst e.
    eapply ask_hit_run; [exact Hp1 | |].
    + destruct Hal1 as [_ Hc1]. rewrite Hc1. reflexivity.
    + rewrite nth_error_map, Hek. reflexivity.
Qed.

(** ** The theorems at concrete inputs *)

Lemma two_ceos_reachable : reachable demo_env two_ceos.
Proof.
  unfold two_ceos. do 2 apply reachable_run_ask.
  apply reachable_run_init. reflexivity.
Qed.



Lemma C3_witness :
  reachable demo_env two_ceos /\
  ask_path demo_env two_ceos q_ceo = HitPath 1 /\
  exists texts text,
    getitem_key (cache two_ceos) "response_text" = inr (JArr texts) /\
    nth_error texts (Z.to_nat 1) = Some text /\
    ask demo_env (answers_with "unused") q_ceo two_ceos = (inr text, two_ceos).
Proof.
  assert (Hp : ask_path demo_env two_ceos q_ceo = HitPath 1)
    by (vm_compute; reflexivity).
  split; [exact two_ceos_reachable|]. split; [exact Hp|].
  exact (C3_hit_is_read_only demo_env (answers_with "unused") two_ceos q_ceo 1
                             two_ceos_reachable Hp).
Defined.

Lemma C5_witness :
  ask_path demo_env (run_init None) q_apple = MissPath /\
  provider_failure demo_env (Response 500 None) /\
  exists msg st',
    ask demo_env (Response 500 None) q_apple (run_init None)
    = (inl (RuntimeError msg), st') /\
    index st' = index (run_init None) /\
    cache st' = cache (run_init None) /\
    disk st' = disk (run_init None) /\
    (log st' = log (run_init None) \/
     log st' = EvPost [q_apple] :: log (run_init None)).
Proof.
  assert (Hp : ask_path demo_env (run_init None) q_apple = MissPath)
    by (vm_compute; reflexivity).
  assert (Hf : provider_failure demo_env (Response 500 None))
    by (apply fail_status; discriminate).
  split; [exact Hp|]. split; [exact Hf|].
  exact (C5_generation_failure_commits_nothing
           demo_env (Response 500 None) (run_init None) q_apple Hp Hf).
Defined.



Lemma C10_witness :
  index_dim_ok (run_init None) /\
  ntotal (index (run_init None)) = 0%nat /\
  index_search (index (run_init None)) (encode demo_env q_france)
  = inr (FLT_MAX, -1) /\
  ask_path demo_env (run_init None) q_france = MissPath.
Proof.
  assert (Hd : index_dim_ok (run_init None)) by reflexivity.
  assert (H0 : ntotal (index (run_init None)) = 0%nat) by reflexivity.
  split; [exact Hd|]. split; [exact H0|].
  destruct (proj1 (C10_empty_index_misses demo_env (run_init None) q_france Hd) H0)
    as (Hs & Hp & _).
  split; [exact Hs | exact Hp].
Defined.

(** * Further properties of the notebook *)

(** ** What every method leaves alone *)

Lemma cache_append_keeps (P : state -> Prop) (k : string) (item : json) :
  (forall c st, P st -> P (set_cache c st)) ->
  keeps P (cache_append k item).
Proof.
  intros Hc st HP. unfold cache_append, bind, get, lift, modify.
  destruct (append_at (cache st) k item); simpl; auto.
Qed.

Lemma ask_keeps (P : state -> Prop) (E : Env) out question :
  (forall e st, P st -> P (add_event e st)) ->
  (forall c st, P st -> P (set_cache c st)) ->
  (forall ix st, P st -> P (set_index ix st)) ->
  (forall f st, P st -> P (set_disk f st)) ->
  keeps P (ask E out question).
Proof.
  intros He Hc Hi Hd. unfold ask.
  apply keeps_try; [|intros e; now apply keeps_pure].
  apply keeps_bind; [now apply keeps_pure|]. intros st0.
  apply keeps_bind; [now apply keeps_pure|]. intros DI.
  destruct (hit_guard _ _).
  - unfold ask_hit.
    apply keeps_bind; [now apply keeps_pure|]. intros st1.
    apply keeps_bind; now intros; apply keeps_pure.
  - unfold ask_miss.
    apply keeps_bind; [now apply generate_answer_keeps|]. intros [answer rt].
    do 4 (apply keeps_bind; [now apply cache_append_keeps|]; intros _).
    apply keeps_bind.
    + apply keeps_bind; [now apply keeps_pure|]. intros st1.
      apply keeps_bind; [now apply keeps_pure|]. intros ix.
      apply keeps_modify. auto.
    + intros _. apply keeps_bind; [now apply save_cache_keeps|].
      intros _. now apply keeps_pure.
Qed.


Lemma ask_write_error (E : Env) out question st :
  write_error (snd (ask E out question st)) = write_error st.
Proof.
  apply (ask_keeps (fun s => write_error s = write_error st)); auto.
Qed.



(** ** Requests and vectors, call by call *)

Lemma generate_answer_effects (E : Env) out question st :
  let r := generate_answer E out question st in
  index (snd r) = index st /\ cache (snd r) = cache st /\
  disk (snd r) = disk st /\
  match fst r with
  | inr _ => log (snd r) = EvPost [question] :: log st
  | inl _ => log (snd r) = log st \/ log (snd r) = EvPost [question] :: log st
  end.
Proof.
  destruct (key_missing (api_key E)) eqn:Hkey.
  - destruct (generate_answer_no_key E out question st Hkey) as (reason & Hg & _).
    rewrite Hg. simpl. repeat split; auto.
  - rewrite (generate_answer_sent E out question st Hkey). simpl.
    destruct (extract_text (returned_json out)); repeat split; auto.
Qed.

Lemma footprint_one_step (st s : state) (x : vec) (question : string) r :
  footprint st x question r s -> one_step st s.
Proof.
  unfold footprint, one_step, provider_calls, ntotal.
  intros [(Hi & _ & [Hl | Hl]) | (Hi & Hw)].
  - rewrite Hi, Hl. lia.
  - rewrite Hi, Hl. simpl. lia.
  - rewrite Hi, length_app. simpl.
    destruct (write_error st); destruct Hw as (Hl & _); rewrite Hl; simpl; lia.
Qed.

Lemma ask_miss_footprint (E : Env) out question st :
  footprint st (encode E question) question
            (fst (ask_miss E out question (encode E question) st))
            (snd (ask_miss E out question (encode E question) st)).
Proof.
  set (x := encode E question).
  set (R := fun s : state =>
              ix_xb (index s) = ix_xb (index st) /\ disk s = disk st /\
              write_error s = write_error st /\
              log s = EvPost [question] :: log st).
  set (F := fun (r : exn + json) (s : state) => footprint st x question r s).
  assert (HRF : forall r s, R s -> F r s).
  { intros r s (Hi & Hd & _ & Hl). left.
    split; [exact Hi|]. split; [exact Hd | now right]. }
  assert (Happ : forall k item,
             hoare R (cache_append k item)
                   (fun r s => match r with
                               | inr _ => R s
                               | inl e => F (inl e) s
                               end)).
  { intros k item s Hs.
    assert (Hk : R (snd (cache_append k item s)))
      by (apply (cache_append_keeps R k item); [intros c s' HR; exact HR | exact Hs]).
    destruct (fst (cache_append k item s)); [now apply HRF | exact Hk]. }
  enough (H : hoare (fun s => s = st) (ask_miss E out question x) F)
    by (now apply H).
  unfold ask_miss.
  apply hoare_bind with (R := fun _ s => R s).
  - intros s ->.
    destruct (generate_answer_effects E out question st) as (Hi & _ & Hd & Hl).
    assert (Hw : write_error (snd (generate_answer E out question st))
                 = write_error st).
    { apply (generate_answer_keeps (fun s => write_error s = write_error st));
        auto. }
    destruct (fst (generate_answer E out question st)).
    + left. rewrite Hi. split; [reflexivity|]. split; [exact Hd | exact Hl].
    + split; [now rewrite Hi|]. now repeat split.
  - intros [answer rt].
    do 4 (apply hoare_bind with (R := fun _ s => R s); [apply Happ|]; intros _).
    apply hoare_bind
      with (R := fun _ s => ix_xb (index s) = (ix_xb (index st) ++ [x])%list /\
                            disk s = disk st /\
                            write_error s = write_error st /\
                            log s = EvPost [question] :: log st).
    + intros s (Hi & Hd & Hw & Hl). unfold bind, get, lift, modify, index_add.
      destruct (Nat.eqb (List.length x) (ix_d (index s))); simpl.
      * rewrite Hi. now repeat split.
      * apply HRF. now repeat split.
    + intros _ s (Hi & Hd & Hw & Hl). right.
      unfold save_cache, bind, get, modify, ret, raise. rewrite <- Hw.
      destruct (write_error s); simpl.
      * now repeat split.
      * rewrite Hl. now repeat split.
Qed.

(** The same for [ask], which wraps the exception. *)
Lemma ask_footprint (E : Env) out question st :
  exists r,
    footprint st (encode E question) question r (snd (ask E out question st)) /\
    (forall e, r = inl e ->
               fst (ask E out question st) = inl (RuntimeError (ask_prefix ++ str e))).
Proof.
  assert (H0 : footprint st (encode E question) question (inr JNull) st)
    by (left; repeat split; now left).
  destruct (ask_path E st question) as [row| |e] eqn:Hp.
  - exists (inr JNull).
    rewrite (ask_hit_frame E out question st row Hp).
    split; [exact H0 | discriminate].
  - destruct (ask_miss_run E out question st Hp) as [Hs Hr].
    exists (fst (ask_miss E out question (encode E question) st)).
    rewrite Hs. split; [apply ask_miss_footprint|].
    intros e He. now rewrite Hr, He.
  - exists (inr JNull). rewrite ask_by_path, Hp.
    split; [exact H0 | discriminate].
Qed.

Lemma ask_one_step
      (E : Env) (out : http_outcome) (question : string) (st : state) :
  one_step st (snd (ask E out question st)).
Proof.
  destruct (ask_footprint E out question st) as (r & Hf & _).
  eapply footprint_one_step. exact Hf.
Qed.


(** X2. Over a whole session of [ask] and [clear_cache] calls, from any
    state: the number of requests sent never decreases and grows by at most
    the number of [ask] calls, and the index never holds more new vectors
    than requests were sent. *)
Theorem X2_session_requests_bound_vectors
        (E : Env) (ops : list op) (st : state) :
  let s := run_ops E ops st in
  (provider_calls st <= provider_calls s)%nat /\
  (provider_calls s <= provider_calls st + List.length (filter is_ask ops))%nat /\
  (ntotal (index s) + provider_calls st <= ntotal (index st) + provider_calls s)%nat.
Proof.
  revert st. induction ops as [|o ops IH]; intro st; simpl.
  - lia.
  - specialize (IH (run_op E o st)). simpl in IH.
    assert (Ho : (provider_calls st <= provider_calls (run_op E o st))%nat /\
                 (provider_calls (run_op E o st)
                  <= provider_calls st + (if is_ask o then 1 else 0))%nat /\
                 (ntotal (index (run_op E o st)) + provider_calls st
                  <= ntotal (index st) + provider_calls (run_op E o st))%nat).
    { destruct o as [q out|]; simpl.
      - destruct (ask_one_step E out q st) as ((H1 & H2) & (H3 & H4) & H5). lia.
      - rewrite clear_cache_run.
        destruct (write_error st); unfold provider_calls, ntotal; simpl; lia. }
    destruct (is_ask o); simpl; lia.
Qed.

(** ** A cache made of four lists *)



(** ** Loaded lists and the entries stored since *)

Lemma shifted_dim_ok (E : Env) lq le la lr entries st :
  shifted E lq le la lr entries st -> index_dim_ok st.
Proof. intros [Hi _]. unfold index_dim_ok. now rewrite Hi. Qed.


(** One [ask] on such a state: nothing changes but the log, or the question
    missed, was answered and became the last entry, and the file was
    written if it can be. *)
Lemma ask_shifted (E : Env) out question lq le la lr entries st :
  shifted E lq le la lr entries st ->
  euclidean_threshold (snd (ask E out question st)) = euclidean_threshold st /\
  ((shifted E lq le la lr entries (snd (ask E out question st)) /\
    disk (snd (ask E out question st)) = disk st /\
    cache (snd (ask E out question st)) = cache st)
   \/
   (exists v text,
       ask_path E st question = MissPath /\
       out = Response 200 (Some v) /\
       shifted E lq le la lr (entries ++ [mkEntry question v text])
               (snd (ask E out question st)) /\
       (write_error st = None ->
        disk (snd (ask E out question st))
        = Some (JsonDoc (cache (snd (ask E out question st))))))).
Proof.
  intro Hs. split.
  { apply (ask_keeps (fun s => euclidean_threshold s = euclidean_threshold st));
      auto. }
  pose proof (shifted_dim_ok E _ _ _ _ _ _ Hs) as Hd.
  destruct Hs as [Hi Hc].
  destruct (ask_path E st question) as [row| |e] eqn:Hp.
  - left. rewrite (ask_hit_frame E out question st row Hp). now repeat split.
  - destruct (provider_outcome_cases E out) as [Hf | (Hkey & v & text & -> & He)].
    + left. destruct (ask_miss_failure E out question st Hp Hf)
        as (reason & st' & Hask & Hst).
      rewrite Hask. simpl. destruct Hst as [-> | ->]; now repeat split.
    + right. exists v, text.
      destruct (ask_miss_stores E st question v text _ _ _ _ Hc Hd Hkey He)
        as (Hc' & Hi' & _ & _ & Hrun).
      rewrite (proj1 (ask_miss_run E _ question st Hp)).
      split; [reflexivity|]. split; [reflexivity|]. split; [split|].
      * rewrite Hi', Hi. unfold index_of. simpl. now rewrite map_app.
      * rewrite Hc'. rewrite !map_app, !app_assoc. reflexivity.
      * intro Hw. rewrite Hw in Hrun. apply Hrun.
  - left. rewrite ask_by_path, Hp. simpl. now repeat split.
Qed.



Lemma shifted_counts (E : Env) lq le la lr entries st :
  shifted E lq le la lr entries st ->
  ntotal (index st) = List.length entries /\
  entry_count (cache st) "questions" = Some (List.length lq + ntotal (index st))%nat /\
  entry_count (cache st) "embeddings" = Some (List.length le + ntotal (index st))%nat /\
  entry_count (cache st) "answers" = Some (List.length la + ntotal (index st))%nat /\
  entry_count (cache st) "response_text"
  = Some (List.length lr + ntotal (index st))%nat.
Proof.
  intros [Hi Hc]. rewrite Hi, Hc. unfold ntotal, entry_count. simpl.
  rewrite !length_app, !length_map. repeat split; reflexivity.
Qed.

(** X6. Through any sequence of [ask] calls on a cache whose lists start with
    loaded lists, the loaded lists stay as they are at the front; behind
    them come the entries of questions that missed and were answered, at
    most one per call and each for a question that was asked; the index
    holds the embeddings of those entries only.  So each list stays longer
    than the index by the length of the loaded list. *)
Theorem X6_loaded_lists_stay_in_front
        (E : Env) (ops : list op) lq le la lr (entries : list entry)
        (st : state) :
  shifted E lq le la lr entries st ->
  forallb is_ask ops = true ->
  exists added,
    shifted E lq le la lr (entries ++ added) (run_ops E ops st) /\
    (List.length added <= List.length ops)%nat /\
    (forall e, In e added -> exists out, In (Ask (e_question e) out) ops) /\
    entry_count (cache (run_ops E ops st)) "response_text"
    = Some (List.length lr + ntotal (index (run_ops E ops st)))%nat.
Proof.
  intros Hs Hops.
  enough (H : exists added,
             shifted E lq le la lr (entries ++ added) (run_ops E ops st) /\
             (List.length added <= List.length ops)%nat /\
             (forall e, In e added -> exists out, In (Ask (e_question e) out) ops)).
  { destruct H as (added & Hs' & Hlen & Hin). exists added.
    split; [exact Hs'|]. split; [exact Hlen|]. split; [exact Hin|].
    now destruct (shifted_counts E _ _ _ _ _ _ Hs') as (_ & _ & _ & _ & H). }
  revert entries st Hs. induction ops as [|o ops IH]; intros entries st Hs.
  - exists []. rewrite app_nil_r. simpl.
    split; [exact Hs|]. split; [lia|]. intros e [].
  - simpl in Hops. apply andb_true_iff in Hops. destruct Hops as [Ho Hops].
    destruct o as [q out|]; [clear Ho | discriminate]. simpl.
    destruct (ask_shifted E out q lq le la lr entries st Hs)
      as (_ & [(Hs' & _) | (v & text & _ & _ & Hs' & _)]).
    + destruct (IH Hops entries _ Hs') as (added & Ha & Hlen & Hin).
      exists added. split; [exact Ha|]. split; [lia|].
      intros e He. destruct (Hin e He) as [o Ho]. exists o. now right.
    + destruct (IH Hops _ _ Hs') as (added & Ha & Hlen & Hin).
      exists (mkEntry q v text :: added). split; [|split].
      * now rewrite <- app_assoc in Ha.
      * simpl. lia.
      * intros e [<- | He].
        -- exists out. now left.
        -- destruct (Hin e He) as [o Ho]. exists o. now right.
Qed.


(** ** A cache that was not restarted on a file *)









(** ** A file that cannot be written *)

(** X19. An object whose cache file cannot be opened for writing works in
    memory only: through any sequence of [ask] and [clear_cache] calls the
    file stays exactly as it was, and a [clear_cache] still empties the
    lists and the index before it raises the exception of [open], as it
    is. *)
Theorem X19_unwritable_file_is_left_alone
        (E : Env) (ops : list op) (st : state) (e : exn) :
  write_error st = Some e ->
  let s := run_ops E ops st in
  disk s = disk st /\
  write_error s = Some e /\
  fst (clear_cache s) = inl e /\
  cache (snd (clear_cache s)) = empty_cache /\
  index (snd (clear_cache s)) = mkIndex EMBED_DIM [] /\
  disk (snd (clear_cache s)) = disk st.
Proof.
  intros Hw s.
  assert (H : disk s = disk st /\ write_error s = Some e).
  { unfold s. clear s. revert st Hw.
    induction ops as [|o ops IH]; intros st Hw; [now split|].
    simpl.
    assert (Ho : disk (run_op E o st) = disk st /\
                 write_error (run_op E o st) = Some e).
    { destruct o as [q out|]; simpl.
      - split; [|now rewrite ask_write_error].
        destruct (ask_footprint E out q st) as (r & [(_ & Hd & _) | (_ & Hf)] & _);
          [exact Hd|].
        rewrite Hw in Hf. apply Hf.
      - rewrite clear_cache_run, Hw. simpl. now split. }
    destruct Ho as [Hd Hw']. destruct (IH _ Hw') as [Hd' Hw''].
    split; [now rewrite Hd', Hd | exact Hw'']. }
  destruct H as [Hd Hw']. split; [exact Hd|]. split; [exact Hw'|].
  rewrite clear_cache_run, Hw'. simpl. now repeat split.
Qed.

(** ** generate_answer, case by case *)

(** X11. [generate_answer] returns exactly when the credential is present,
    the status is 200 and the JSON body has a [data.response_text]; it then
    returns the whole body together with that field.  In every other case
    it raises a [RuntimeError] whose message starts with its own prefix.
    Either way it leaves index, cache and file alone. *)
Theorem X11_generate_answer_outcomes
        (E : Env) (out : http_outcome) (question : string) (st : state) :
  match fst (generate_answer E out question st) with
  | inr (result, text) =>
      key_missing (api_key E) = false /\
      out = Response 200 (Some result) /\
      extract_text result = inr text
  | inl e =>
      provider_failure E out /\
      exists reason, e = RuntimeError (generate_prefix ++ reason)
  end
  /\ index (snd (generate_answer E out question st)) = index st
  /\ cache (snd (generate_answer E out question st)) = cache st
  /\ disk (snd (generate_answer E out question st)) = disk st.
Proof.
  split.
  - destruct (provider_outcome_cases E out) as [Hf | (Hkey & v & text & -> & He)].
    + destruct (generate_answer_failure E out question st Hf)
        as (reason & st' & Hg & _).
      rewrite Hg. simpl. split; [exact Hf | now exists reason].
    + rewrite (generate_answer_success E question st v text Hkey He). simpl.
      now repeat split.
  - now destruct (generate_answer_effects E out question st) as (Hi & Hc & Hd & _).
Qed.

(** ** A cache that lacks one of its lists *)

Lemma cache_append_no_list (k0 k : string) (item : json) (st : state) :
  no_list_at k0 (cache st) ->
  index (snd (cache_append k item st)) = index st /\
  disk (snd (cache_append k item st)) = disk st /\
  log (snd (cache_append k item st)) = log st /\
  no_list_at k0 (cache (snd (cache_append k item st))) /\
  match fst (cache_append k item st) with
  | inr _ => k <> k0
  | inl _ => True
  end.
Proof.
  intro Hbad. unfold cache_append, bind, get, lift, modify.
  destruct (append_at (cache st) k item) as [e|c'] eqn:Ha; simpl.
  - now repeat split.
  - assert (Hne : k <> k0).
    { intros ->. destruct (append_at_same _ _ _ _ Ha) as (l & Hl & _).
      exact (Hbad l Hl). }
    repeat split; try exact Hne.
    intros l Hl. apply (Hbad l).
    now rewrite <- (append_at_other _ _ k k0 item Ha) by congruence.
Qed.

Lemma ask_miss_no_list (E : Env) out question (k0 : string) (st : state) :
  In k0 cache_keys ->
  no_list_at k0 (cache st) ->
  (exists e, fst (ask_miss E out question (encode E question) st) = inl e) /\
  index (snd (ask_miss E out question (encode E question) st)) = index st /\
  disk (snd (ask_miss E out question (encode E question) st)) = disk st /\
  no_list_at k0 (cache (snd (ask_miss E out question (encode E question) st))).
Proof.
  intros Hin Hbad.
  set (P := fun s : state =>
              index s = index st /\ disk s = disk st /\ no_list_at k0 (cache s)).
  set (Q := fun (r : exn + json) (s : state) => P s /\ exists e, r = inl e).
  set (N := fun (l : list string) (s : state) => P s /\ ~ In k0 l).
  assert (Hstep : forall l k item,
             hoare (N l) (cache_append k item)
                   (fun r s => match r with
                               | inr _ => N (k :: l) s
                               | inl e => Q (inl e) s
                               end)).
  { intros l k item s [(Hi & Hd & Hb) Hl].
    destruct (cache_append_no_list k0 k item s Hb) as (Hi' & Hd' & _ & Hb' & Hr).
    assert (HP : P (snd (cache_append k item s)))
      by (repeat split; [congruence | congruence | exact Hb']).
    destruct (fst (cache_append k item s)) as [e|[]].
    - split; [exact HP | now exists e].
    - split; [exact HP|]. intros [Hk | Hk]; [now apply Hr | now apply Hl]. }
  enough (H : hoare (fun s => s = st) (ask_miss E out question (encode E question)) Q).
  { destruct (H st eq_refl) as [(Hi & Hd & Hb) He]. now repeat split. }
  unfold ask_miss.
  apply hoare_bind with (R := fun _ s => N [] s).
  - intros s ->.
    destruct (generate_answer_effects E out question st) as (Hi & Hc & Hd & _).
    assert (HP : P (snd (generate_answer E out question st))).
    { repeat split; try assumption. unfold no_list_at. now rewrite Hc. }
    destruct (fst (generate_answer E out question st)) as [e|a].
    + split; [exact HP | now exists e].
    + split; [exact HP | intros []].
  - intros [answer rt].
    eapply hoare_bind; [apply Hstep|]. intros [].
    eapply hoare_bind; [apply Hstep|]. intros [].
    eapply hoare_bind; [apply Hstep|]. intros [].
    eapply hoare_bind; [apply Hstep|]. intros [].
    intros s [_ Hl]. exfalso. apply Hl. unfold cache_keys in Hin. simpl in *.
    tauto.
Qed.

(** X12. An object whose cache lacks one of the four lists (a missing key, a
    value that is not a list, a file that does not hold a dictionary) and
    whose index is empty never answers: every [ask] raises a [RuntimeError],
    also when the provider was called and answered, and leaves the object as
    unable as before, with the file untouched. *)
Theorem X12_cache_without_a_list_never_answers
        (E : Env) (out : http_outcome) (question : string) (st : state) :
  broken st ->
  (exists msg, fst (ask E out question st) = inl (RuntimeError msg)) /\
  broken (snd (ask E out question st)) /\
  disk (snd (ask E out question st)) = disk st.
Proof.
  intros (Hd & H0 & k0 & Hin & Hbad).
  assert (Hp : ask_path E st question = MissPath).
  { unfold ask_path. rewrite (index_search_ok E st question Hd).
    unfold ntotal in H0. apply length_zero_iff_nil in H0. now rewrite H0. }
  destruct (ask_miss_no_list E out question k0 st Hin Hbad)
    as ([e He] & Hi & Hdisk & Hb).
  rewrite ask_by_path, Hp. unfold ask_guarded, try_except, raise.
  destruct (ask_miss E out question (encode E question) st) as [r s].
  simpl in He, Hi, Hdisk, Hb. subst r. simpl.
  split; [eexists; reflexivity|]. split; [|exact Hdisk].
  unfold broken, index_dim_ok. rewrite Hi.
  split; [exact Hd|]. split; [exact H0|]. now exists k0.
Qed.

(** * Properties of the upload notebook *)

Section UploadProperties.

Import Upload.

(** ** Strings *)

Lemma str_length_app (a b : string) :
  String.length (a ++ b) = (String.length a + String.length b)%nat.
Proof. induction a as [|c a IH]; simpl; [reflexivity | now rewrite IH]. Qed.

Lemma substring_whole (s : string) : substring 0 (String.length s) s = s.
Proof. induction s as [|c s IH]; simpl; [reflexivity | now rewrite IH]. Qed.

Lemma substring_app_right (a b : string) :
  substring (String.length a) (String.length b) (a ++ b) = b.
Proof. induction a as [|c a IH]; simpl; [apply substring_whole | exact IH]. Qed.

Lemma substring_split (s : string) :
  forall k, (k <= String.length s)%nat ->
            s = substring 0 k s ++ substring k (String.length s - k) s.
Proof.
  induction s as [|c s IH]; intros k Hk; simpl in Hk.
  - assert (k = 0%nat) as -> by lia. reflexivity.
  - destruct k as [|k]; simpl.
    + now rewrite substring_whole.
    + f_equal. apply IH. lia.
Qed.

Lemma lower_app (a b : string) : lower (a ++ b) = lower a ++ lower b.
Proof. induction a as [|c a IH]; simpl; [reflexivity | now rewrite IH]. Qed.

Lemma lower_length (s : string) : String.length (lower s) = String.length s.
Proof. induction s as [|c s IH]; simpl; [reflexivity | now rewrite IH]. Qed.

Lemma lower_substring (s : string) :
  forall n m, lower (substring n m s) = substring n m (lower s).
Proof.
  induction s as [|c s IH]; intros [|n] [|m]; simpl; try reflexivity;
    try apply IH.
  now rewrite IH.
Qed.

(** A name passes the test exactly when it ends with four bytes that lower
    to [.pdf]. *)
Lemma is_pdf_name_iff (f : string) :
  is_pdf_name f = true <->
  exists stem ext, f = stem ++ ext /\ lower ext = ".pdf".
Proof.
  unfold is_pdf_name, endswith. rewrite lower_length. simpl String.length.
  split.
  - destruct (Nat.leb 4 (String.length f)) eqn:Hle; [|discriminate].
    apply Nat.leb_le in Hle. intro H. apply String.eqb_eq in H.
    exists (substring 0 (String.length f - 4) f),
           (substring (String.length f - 4) 4 f).
    split.
    + rewrite (substring_split f (String.length f - 4)) at 1 by lia.
      do 2 f_equal. lia.
    + now rewrite lower_substring.
  - intros (stem & ext & -> & Hext).
    assert (Hlen : String.length ext = 4%nat)
      by (rewrite <- lower_length, Hext; reflexivity).
    rewrite str_length_app, Hlen.
    replace (Nat.leb 4 (String.length stem + 4)) with true
      by (symmetry; apply Nat.leb_le; lia).
    apply String.eqb_eq. rewrite lower_app, Hext.
    replace (String.length stem + 4 - 4)%nat with (String.length (lower stem))
      by (rewrite lower_length; lia).
    exact (substring_app_right (lower stem) ".pdf").
Qed.

Lemma read_text_is_concat (pages : list string) (acc : string) :
  fold_left String.append pages acc = acc ++ String.concat EmptyString pages.
Proof.
  revert acc. induction pages as [|p pages IH]; intro acc; simpl.
  - induction acc as [|c acc IHa]; simpl; [reflexivity | now f_equal].
  - rewrite IH. destruct pages as [|p' pages]; simpl.
    + induction (acc ++ p) as [|c s IHs]; simpl; [reflexivity | now f_equal].
    + clear IH. induction acc as [|c acc IHa]; simpl; [reflexivity | now f_equal].
Qed.

(** ** Scanning a folder *)

Lemma existsb_eqb_false (f : string) (seen : list string) :
  ~ In f seen -> existsb (String.eqb f) seen = false.
Proof.
  intro Hn. destruct (existsb (String.eqb f) seen) eqn:He; [|reflexivity].
  apply existsb_exists in He. destruct He as (g & Hg & Heq).
  apply String.eqb_eq in Heq. subst g. contradiction.
Qed.

Lemma scan_folder_ok (pdfs : pdf_store) (folder : string) (names : list string) :
  forall docs seen,
    NoDup names ->
    (forall f, In f names -> ~ In f seen) ->
    (forall f, In f names -> is_pdf_name f = true ->
               exists pages, pdfs (path_join folder f) = inr pages) ->
    exists texts,
      scan_folder pdfs folder names docs seen
      = (inr tt, (docs ++ texts, rev (filter is_pdf_name names) ++ seen))%list /\
      Forall2 (reads pdfs folder) (filter is_pdf_name names) texts.
Proof.
  induction names as [|f rest IH]; intros docs seen Hnd Hseen Hok.
  - exists []. simpl. rewrite app_nil_r. split; [reflexivity | constructor].
  - inversion Hnd as [|f' rest' Hf Hrest]; subst. simpl.
    destruct (is_pdf_name f) eqn:Hpdf; simpl.
    + rewrite (existsb_eqb_false f seen) by (apply Hseen; now left). simpl.
      destruct (Hok f (or_introl eq_refl) Hpdf) as [pages Hpages].
      unfold read_text_pymupdf. rewrite Hpages.
      destruct (IH (docs ++ [fold_left String.append pages EmptyString])%list
                   (f :: seen) Hrest)
        as (texts & Hscan & Hall).
      * intros g Hg [<- | Hin]; [contradiction | exact (Hseen g (or_intror Hg) Hin)].
      * intros g Hg. apply Hok. now right.
      * exists (fold_left String.append pages EmptyString :: texts).
        split.
        -- rewrite Hscan. rewrite <- !app_assoc. reflexivity.
        -- constructor; [|exact Hall].
           exists pages. split; [exact Hpages|].
           now rewrite read_text_is_concat.
    + destruct (IH docs seen Hrest) as (texts & Hscan & Hall).
      * intros g Hg. apply Hseen. now right.
      * intros g Hg. apply Hok. now right.
      * exists texts. now split.
Qed.

Lemma scan_folder_app (pdfs : pdf_store) (folder : string)
      (before rest : list string) :
  forall docs seen docs' seen',
    scan_folder pdfs folder before docs seen = (inr tt, (docs', seen')) ->
    scan_folder pdfs folder (before ++ rest) docs seen
    = scan_folder pdfs folder rest docs' seen'.
Proof.
  induction before as [|f before IH]; intros docs seen docs' seen' H; simpl in *.
  - now injection H as <- <-.
  - destruct (is_pdf_name f && negb (existsb (String.eqb f) seen)).
    + destruct (read_text_pymupdf pdfs (path_join folder f)); [discriminate|].
      now apply IH.
    + now apply IH.
Qed.

(** X13. Scanning a folder whose listing has no repeated name, when every
    PDF in it can be opened: the loop ends normally and the collected texts
    are, in listing order, those of exactly the names that end in [.pdf] in
    any letter case, each the concatenation of the document's page texts;
    no other file is opened and the names remembered are those names. *)
Theorem X13_scan_reads_each_pdf_once
        (pdfs : pdf_store) (folder : string) (names : list string) :
  NoDup names ->
  (forall f, In f names -> is_pdf_name f = true ->
             exists pages, pdfs (path_join folder f) = inr pages) ->
  exists docs,
    scan_folder pdfs folder names [] []
    = (inr tt, (docs, rev (filter is_pdf_name names))) /\
    Forall2 (reads pdfs folder) (filter is_pdf_name names) docs /\
    List.length docs = List.length (filter is_pdf_name names) /\
    (forall f, In f (filter is_pdf_name names) <->
               In f names /\
               exists stem ext, f = stem ++ ext /\ lower ext = ".pdf").
Proof.
  intros Hnd Hok.
  destruct (scan_folder_ok pdfs folder names [] [] Hnd) as (texts & Hscan & Hall);
    [intros f _ [] | exact Hok |].
  exists texts. rewrite app_nil_r in Hscan. simpl in Hscan.
  split; [exact Hscan|]. split; [exact Hall|]. split.
  - symmetry. eapply Forall2_length; eauto.
  - intro f. rewrite filter_In, is_pdf_name_iff. tauto.
Qed.

(** X14. When a PDF of the folder cannot be opened, the scan stops there with
    the exception of [fitz.open]: the texts of the PDFs listed before it are
    in the list, nothing listed after it is read. *)
Theorem X14_scan_stops_at_first_failure
        (pdfs : pdf_store) (folder : string) (before after : list string)
        (f : string) (e : exn) :
  NoDup (before ++ f :: after) ->
  is_pdf_name f = true ->
  pdfs (path_join folder f) = inl e ->
  (forall g, In g before -> is_pdf_name g = true ->
             exists pages, pdfs (path_join folder g) = inr pages) ->
  exists docs,
    scan_folder pdfs folder (before ++ f :: after) [] []
    = (inl e, (docs, rev (filter is_pdf_name before))) /\
    Forall2 (reads pdfs folder) (filter is_pdf_name before) docs.
Proof.
  intros Hnd Hpdf Hfail Hok.
  assert (Hndb : NoDup before) by (eapply NoDup_app_remove_r; eauto).
  assert (Hfb : ~ In f before).
  { apply NoDup_remove_2 in Hnd. intro Hin. apply Hnd.
    apply in_or_app. now left. }
  destruct (scan_folder_ok pdfs folder before [] [] Hndb) as (texts & Hscan & Hall);
    [intros g _ [] | exact Hok |].
  rewrite app_nil_r in Hscan. simpl in Hscan.
  exists texts. split; [|exact Hall].
  rewrite (scan_folder_app pdfs folder before (f :: after) _ _ _ _ Hscan).
  simpl. rewrite Hpdf.
  rewrite existsb_eqb_false.
  - simpl. unfold read_text_pymupdf. now rewrite Hfail.
  - rewrite <- in_rev. intro Hin. apply filter_In in Hin. now apply Hfb.
Qed.

(** ** Metadata and points *)

Lemma dict_get_set_same (k v : string) (d : list (string * string)) :
  dict_get k (dict_set k v d) = Some v.
Proof.
  induction d as [|[k' v'] d IH]; simpl.
  - now rewrite String.eqb_refl.
  - destruct (String.eqb k k') eqn:Hk; simpl; rewrite Hk; auto.
Qed.

Lemma dict_get_set_other (k k' v : string) (d : list (string * string)) :
  k' <> k -> dict_get k' (dict_set k v d) = dict_get k' d.
Proof.
  intro Hne. induction d as [|[k0 v0] d IH]; simpl.
  - apply String.eqb_neq in Hne. now rewrite Hne.
  - destruct (String.eqb k k0) eqn:Hk; simpl.
    + apply String.eqb_eq in Hk. subst k0.
      apply String.eqb_neq in Hne. now rewrite Hne.
    + now rewrite IH.
Qed.

Lemma build_points_after_metadata
      (document_path : string) (uuid4 : nat -> string)
      (get_text_embeddings : string -> vec) (chunks : list Document) :
  forall n pre,
    List.length pre = n ->
    exists points,
      build_points
        (pre ++ embed_chunks get_text_embeddings
                             (assign_metadata document_path uuid4 n chunks))
        n (assign_metadata document_path uuid4 n chunks)
      = inr points /\
      List.length points = List.length chunks /\
      forall i d,
        nth_error chunks i = Some d ->
        exists p,
          nth_error points i = Some p /\
          id p = uuid4 (n + i)%nat /\
          vector p = get_text_embeddings (page_content d) /\
          payload_content p = page_content d /\
          dict_get "uuid" (payload_metadata p) = Some (uuid4 (n + i)%nat) /\
          dict_get "document_info" (payload_metadata p) = Some document_path.
Proof.
  induction chunks as [|d chunks IH]; intros n pre Hn; simpl.
  - exists []. repeat split; auto. intros [|i] d Hd; discriminate.
  - rewrite dict_get_set_same.
    rewrite nth_error_app2 by lia.
    replace (n - List.length pre)%nat with 0%nat by lia. simpl.
    destruct (IH (S n) (pre ++ [get_text_embeddings (page_content d)])%list)
      as (points & Hb & Hlen & Hall).
    { rewrite length_app. simpl. lia. }
    rewrite <- app_assoc in Hb. simpl in Hb. unfold embed_chunks in Hb.
    unfold embed_chunks. rewrite Hb.
    eexists. split; [reflexivity|]. split; [simpl; now rewrite Hlen|].
    intros [|i] d' Hd'; simpl in Hd'.
    + injection Hd' as <-. eexists. split; [reflexivity|]. simpl.
      rewrite Nat.add_0_r. repeat split.
      * apply dict_get_set_same.
      * rewrite dict_get_set_other by discriminate. apply dict_get_set_same.
    + destruct (Hall i d' Hd') as (p & Hp & Hrest).
      exists p. split; [exact Hp|].
      now replace (n + S i)%nat with (S n + i)%nat by lia.
Qed.

(** X15. After the metadata loop has run over the chunks and every chunk was
    embedded, building the points succeeds: there is one point per chunk, in
    order; point [i] has the UUID drawn for chunk [i] as its id, the
    embedding of the chunk's text as its vector, the chunk's text as its
    content, and metadata that holds that UUID and the folder path.  When
    the drawn UUIDs are all different, so are the ids of the points. *)
Theorem X15_points_follow_the_chunks
        (document_path : string) (uuid4 : nat -> string)
        (get_text_embeddings : string -> vec) (chunks : list Document) :
  let tagged := assign_metadata document_path uuid4 0 chunks in
  exists points,
    build_points (embed_chunks get_text_embeddings tagged) 0 tagged = inr points /\
    List.length points = List.length chunks /\
    (forall i d,
        nth_error chunks i = Some d ->
        exists p,
          nth_error points i = Some p /\
          id p = uuid4 i /\
          vector p = get_text_embeddings (page_content d) /\
          payload_content p = page_content d /\
          dict_get "uuid" (payload_metadata p) = Some (uuid4 i) /\
          dict_get "document_info" (payload_metadata p) = Some document_path) /\
    ((forall i j, uuid4 i = uuid4 j -> i = j) -> NoDup (map id points)).
Proof.
  intro tagged.
  destruct (build_points_after_metadata document_path uuid4 get_text_embeddings
                                        chunks 0 [] eq_refl)
    as (points & Hb & Hlen & Hall).
  exists points. split; [exact Hb|]. split; [exact Hlen|]. split; [exact Hall|].
  intro Hinj. apply (NoDup_nth_error (map id points)).
  intros i j Hi Heq. rewrite length_map, Hlen in Hi.
  assert (Hj : (j < List.length chunks)%nat).
  { rewrite <- Hlen, <- (length_map id). apply nth_error_Some.
    rewrite <- Heq. apply nth_error_Some. rewrite length_map, Hlen. exact Hi. }
  destruct (nth_error chunks i) as [di|] eqn:Hdi;
    [|apply nth_error_None in Hdi; lia].
  destruct (nth_error chunks j) as [dj|] eqn:Hdj;
    [|apply nth_error_None in Hdj; lia].
  destruct (Hall i di Hdi) as (p & Hp & Hid & _).
  destruct (Hall j dj Hdj) as (p' & Hp' & Hid' & _).
  rewrite !nth_error_map, Hp, Hp' in Heq. simpl in Heq, Hid, Hid'.
  injection Heq as Heq. apply Hinj. congruence.
Qed.

Lemma build_points_outcome (embedded : list vec) (chunks : list Document) :
  forall idx,
    (exists points, build_points embedded idx chunks = inr points /\
                    List.length points = List.length chunks) <->
    (Forall has_uuid chunks /\
     (chunks = [] \/ (idx + List.length chunks <= List.length embedded)%nat)).
Proof.
  induction chunks as [|d chunks IH]; intro idx; simpl.
  - split.
    + intros _. split; [constructor | now left].
    + intros _. now exists [].
  - unfold has_uuid at 1. split.
    + intros (points & Hb & Hlen).
      destruct (dict_get "uuid" (metadata d)) as [u|] eqn:Hu; [|discriminate].
      destruct (nth_error embedded idx) as [x|] eqn:Hx; [|discriminate].
      destruct (build_points embedded (S idx) chunks) as [e|ps] eqn:Hps;
        [discriminate|].
      injection Hb as <-. simpl in Hlen.
      destruct (proj1 (IH (S idx))) as [Hall Hsize].
      { exists ps. split; [exact Hps | lia]. }
      split.
      * constructor; [unfold has_uuid; congruence | exact Hall].
      * right. assert (idx < List.length embedded)%nat
          by (apply nth_error_Some; congruence).
        destruct Hsize as [-> | Hsize]; simpl; lia.
    + intros [Hall [Hnil | Hsize]]; [discriminate|].
      inversion Hall as [|d' chunks' Hd Hrest]; subst.
      unfold has_uuid in Hd.
      destruct (dict_get "uuid" (metadata d)) as [u|]; [|contradiction].
      destruct (nth_error embedded idx) as [x|] eqn:Hx;
        [|apply nth_error_None in Hx; lia].
      destruct (proj2 (IH (S idx))) as (ps & Hps & Hlen).
      { split; [exact Hrest|]. destruct chunks; [now left | right; simpl in *; lia]. }
      rewrite Hps. eexists. split; [reflexivity | simpl; now rewrite Hlen].
Qed.

(** X16. Building the points succeeds exactly when every chunk has a UUID in
    its metadata and there are at least as many embeddings as chunks;
    embeddings beyond the number of chunks are ignored.  A chunk without a
    UUID gives [KeyError], a missing embedding [IndexError]. *)
Theorem X16_points_need_uuid_and_embedding
        (embedded : list vec) (chunks : list Document) :
  ((exists points, build_points embedded 0 chunks = inr points /\
                   List.length points = List.length chunks) <->
   (Forall has_uuid chunks /\
    (List.length chunks <= List.length embedded)%nat))
  /\
  (forall e, build_points embedded 0 chunks = inl e ->
             e = KeyError (repr_str "uuid") \/
             e = IndexError "list index out of range").
Proof.
  split.
  - rewrite (build_points_outcome embedded chunks 0). simpl.
    split; intros [Hall H]; (split; [exact Hall|]).
    + destruct H as [-> | H]; simpl; lia.
    + now right.
  - generalize 0%nat. induction chunks as [|d chunks IH]; intros idx e; simpl.
    + discriminate.
    + destruct (dict_get "uuid" (metadata d)); [|intro H; left; congruence].
      destruct (nth_error embedded idx); [|intro H; right; congruence].
      destruct (build_points embedded (S idx) chunks) as [e'|ps] eqn:Hps;
        [|discriminate].
      intro H. injection H as <-. now apply (IH (S idx)).
Qed.

(** ** Collections *)

(** X17. Creating a collection unless it exists: afterwards the collection
    exists; an existing collection is left as it is, with the vector size it
    was created with, whatever the size of the embeddings at hand; running
    the cell again changes nothing; no other collection is touched. *)
Theorem X17_create_if_missing_is_idempotent
        (name : string) (size size' : nat) (cs : collections) :
  collection_exists name (create_if_missing name size cs) = true /\
  (collection_exists name cs = true -> create_if_missing name size cs = cs) /\
  create_if_missing name size' (create_if_missing name size cs)
  = create_if_missing name size cs /\
  (forall other, other <> name ->
                 collection_exists other (create_if_missing name size cs)
                 = collection_exists other cs).
Proof.
  assert (Hex : collection_exists name (create_if_missing name size cs) = true).
  { unfold create_if_missing.
    destruct (collection_exists name cs) eqn:He; [exact He|].
    unfold collection_exists. rewrite existsb_app. simpl.
    rewrite String.eqb_refl. apply orb_true_iff. right. reflexivity. }
  split; [exact Hex|]. split; [|split].
  - intro He. unfold create_if_missing. now rewrite He.
  - unfold create_if_missing at 1. now rewrite Hex.
  - intros other Hne. unfold create_if_missing.
    destruct (collection_exists name cs); [reflexivity|].
    unfold collection_exists. rewrite existsb_app. simpl.
    apply String.eqb_neq in Hne. rewrite Hne. now rewrite !orb_false_r.
Qed.

End UploadProperties.

(** * The further properties at concrete inputs *)





Lemma restarted_shifted :
  shifted demo_env [JStr q_france] [tolist (axis 5)] [payload "Paris"]
          [JStr "Paris"] [] restarted.
Proof. split; reflexivity. Qed.

Lemma X6_witness :
  shifted demo_env [JStr q_france] [tolist (axis 5)] [payload "Paris"]
          [JStr "Paris"] [] restarted /\
  forallb is_ask demo_session = true /\
  exists added,
    shifted demo_env [JStr q_france] [tolist (axis 5)] [payload "Paris"]
            [JStr "Paris"] ([] ++ added) (run_ops demo_env demo_session restarted) /\
    (List.length added <= List.length demo_session)%nat /\
    (forall e, In e added ->
               exists out, In (Ask (e_question e) out) demo_session) /\
    entry_count (cache (run_ops demo_env demo_session restarted)) "response_text"
    = Some (List.length [JStr "Paris"]
            + ntotal (index (run_ops demo_env demo_session restarted)))%nat.
Proof.
  assert (Ha : forallb is_ask demo_session = true) by reflexivity.
  split; [exact restarted_shifted|]. split; [exact Ha|].
  exact (X6_loaded_lists_stay_in_front demo_env demo_session _ _ _ _ [] restarted
                                       restarted_shifted Ha).
Defined.





Lemma X19_witness :
  write_error no_folder = Some (FileNotFoundError "missing/cache.json") /\
  disk (run_ops demo_env demo_session no_folder) = None /\
  ntotal (index (run_ops demo_env demo_session no_folder)) = 2%nat /\
  fst (clear_cache (run_ops demo_env demo_session no_folder))
  = inl (FileNotFoundError "missing/cache.json").
Proof.
  assert (Hw : write_error no_folder = Some (FileNotFoundError "missing/cache.json")) by reflexivity.
  split; [exact Hw|].
  destruct (X19_unwritable_file_is_left_alone
              demo_env demo_session no_folder
              (FileNotFoundError "missing/cache.json") Hw)
    as (Hd & _ & Hc & _).
  split; [exact Hd|]. split; [vm_compute; reflexivity | exact Hc].
Defined.

Lemma on_empty_dict_broken : broken on_empty_dict.
Proof.
  split; [reflexivity|]. split; [reflexivity|].
  exists "questions". split; [now left|]. intros l H. discriminate.
Qed.

Lemma X12_witness :
  broken on_empty_dict /\
  (exists msg,
      fst (ask demo_env (answers_with "Tim Cook") q_apple on_empty_dict)
      = inl (RuntimeError msg)) /\
  broken (snd (ask demo_env (answers_with "Tim Cook") q_apple on_empty_dict)) /\
  disk (snd (ask demo_env (answers_with "Tim Cook") q_apple on_empty_dict))
  = disk on_empty_dict.
Proof.
  split; [exact on_empty_dict_broken|].
  exact (X12_cache_without_a_list_never_answers
           demo_env (answers_with "Tim Cook") q_apple on_empty_dict
           on_empty_dict_broken).
Defined.

Lemma demo_names_nodup : NoDup ["a.PDF"; "notes.txt"; "b.pdf"; "c.pdf"].
Proof.
  repeat constructor; simpl; intuition discriminate.
Qed.

Lemma X13_witness :
  NoDup ["a.PDF"; "notes.txt"; "c.pdf"] /\
  exists docs,
    Upload.scan_folder demo_pdfs "docs" ["a.PDF"; "notes.txt"; "c.pdf"] [] []
    = (inr tt, (docs, rev (filter Upload.is_pdf_name ["a.PDF"; "notes.txt"; "c.pdf"])))
    /\ List.length docs = 2%nat.
Proof.
  assert (Hnd : NoDup ["a.PDF"; "notes.txt"; "c.pdf"])
    by (repeat constructor; simpl; intuition discriminate).
  split; [exact Hnd|].
  destruct (X13_scan_reads_each_pdf_once demo_pdfs "docs"
                                         ["a.PDF"; "notes.txt"; "c.pdf"] Hnd)
    as (docs & Hscan & _ & Hlen & _).
  - intros f [<- | [<- | [<- | []]]] Hpdf; try discriminate; eexists; reflexivity.
  - exists docs. split; [exact Hscan | exact Hlen].
Defined.

Lemma X14_witness :
  NoDup (["a.PDF"; "notes.txt"] ++ "b.pdf" :: ["c.pdf"]) /\
  exists docs,
    Upload.scan_folder demo_pdfs "docs"
                       (["a.PDF"; "notes.txt"] ++ "b.pdf" :: ["c.pdf"]) [] []
    = (inl (RuntimeError "cannot open"),
       (docs, rev (filter Upload.is_pdf_name ["a.PDF"; "notes.txt"]))).
Proof.
  split; [exact demo_names_nodup|].
  destruct (X14_scan_stops_at_first_failure
              demo_pdfs "docs" ["a.PDF"; "notes.txt"] ["c.pdf"] "b.pdf"
              (RuntimeError "cannot open") demo_names_nodup eq_refl eq_refl)
    as (docs & Hscan & _).
  - intros g [<- | [<- | []]] Hpdf; try discriminate; eexists; reflexivity.
  - exists docs. exact Hscan.
Defined.
